(** * Nebula graph: visibility derivation and CSV ingestion

    A shallow embedding of the decision logic of the application:
    - [src/unnamed/part_001] (types and [DEFAULT_GRAPH_DATA]),
    - [src/App.tsx] (the [useMemo] that derives [visibleData] and
      [highlightedNodeIds], and the handlers),
    - [src/unnamed/part_000] ([parseCsvToGraph]),
    - [src/unnamed/part_002] (the decisions of [GalaxyGraph] and
      [DetailPanel]).

    JavaScript [Set<string>] values are [gset string]; arrays are lists;
    every [forEach] that mutates local state is a left fold over an
    explicit state.  The plain object used as adjacency list is a
    [gmap string (list string)] of its own properties, read through the
    properties every object inherits from [Object.prototype]; code that
    can throw returns a [Result].  Strings are byte strings (UTF-8); the
    string functions of the engine whose result depends on Unicode tables
    are parameters, gathered in the class [Engine]. *)

From Stdlib Require Import Ascii String QArith Lqa.
From stdpp Require Import gmap strings list fin_maps.

Open Scope string_scope.
Open Scope list_scope.

(** ** Exceptions *)

Inductive Exn := TypeError.

Inductive Result (A : Type) :=
| Ok (a : A)
| Throw (e : Exn).

Arguments Ok {A} a.
Arguments Throw {A} e.

Definition bind {A B} (r : Result A) (k : A → Result B) : Result B :=
  match r with
  | Ok a => k a
  | Throw e => Throw e
  end.

Notation "x ←! r ; k" := (bind r (λ x, k))
  (at level 20, r at level 100, k at level 200, only parsing).

(** A [forEach] whose body can throw. *)
Fixpoint foldM {A B} (f : A → B → Result A) (l : list B) (a : A) : Result A :=
  match l with
  | [] => Ok a
  | b :: l' => a' ←! f a b; foldM f l' a'
  end.

(** ** Strings *)

(** The string methods whose result depends on the engine's Unicode
    tables.  Everything below holds for every engine. *)
Class Engine := {
  toLowerCase : string → string;
  trim : string → string
}.

Module Str.

(** [s.includes(sub)]: [sub] occurs in [s] as a contiguous substring. *)
Fixpoint includes (s sub : string) : bool :=
  if String.prefix sub s then true
  else match s with
       | EmptyString => false
       | String _ s' => includes s' sub
       end.

(** JavaScript truthiness of a string: non-empty. *)
Definition truthy (s : string) : bool :=
  match s with EmptyString => false | _ => true end.

(** *** An engine for text in the ASCII range

    The evaluated examples of this file only contain ASCII text, on which
    the functions below are what every engine computes. *)

Definition lower_ascii (c : ascii) : ascii :=
  let n := nat_of_ascii c in
  if (65 <=? n)%nat && (n <=? 90)%nat then ascii_of_nat (n + 32) else c.

Fixpoint toLowerCase_ascii (s : string) : string :=
  match s with
  | EmptyString => EmptyString
  | String c s' => String (lower_ascii c) (toLowerCase_ascii s')
  end.

(** TAB, LF, VT, FF, CR and SPACE: the white space of the ASCII range. *)
Definition is_space (c : ascii) : bool :=
  let n := nat_of_ascii c in
  ((9 <=? n)%nat && (n <=? 13)%nat) || (n =? 32)%nat.

Fixpoint trim_start (s : string) : string :=
  match s with
  | EmptyString => EmptyString
  | String c s' => if is_space c then trim_start s' else s
  end.

(** Drops trailing white space: a character is kept when it is not
    white space or when something is kept after it. *)
Fixpoint trim_end (s : string) : string :=
  match s with
  | EmptyString => EmptyString
  | String c s' =>
      match trim_end s' with
      | EmptyString => if is_space c then EmptyString else String c EmptyString
      | r => String c r
      end
  end.

Definition trim_ascii (s : string) : string := trim_end (trim_start s).

End Str.

Definition ascii_engine : Engine :=
  {| toLowerCase := Str.toLowerCase_ascii; trim := Str.trim_ascii |}.

(** ** Graph model ([src/unnamed/part_001]) *)

Inductive Group := center | planet | satellite.

#[global] Instance Group_eq_dec : EqDecision Group.
Proof. solve_decision. Defined.

(** The string a [group] value is at run time; [activeGroups] is a
    [Set<string>]. *)
Definition group_name (g : Group) : string :=
  match g with
  | center => "center"
  | planet => "planet"
  | satellite => "satellite"
  end.

Record GraphNode := mkNode {
  id : string;
  name : string;
  group : Group;
  val : Q;
  desc : option string;
  evidence : option string;
  analysis : option string;
  color : option string;
  (* force-graph properties, written by the renderer *)
  x : option Q;
  y : option Q;
  z : option Q;
  fx : option Q;
  fy : option Q;
  fz : option Q
}.

(** [source: string | GraphNode]: a bare id, or the node object the
    renderer put in its place. *)
Inductive Endpoint :=
| EId (s : string)
| ERef (n : GraphNode).

Record GraphLink := mkLink {
  source : Endpoint;
  target : Endpoint;
  link_color : option string
}.

Record GraphData := mkGraph {
  nodes : list GraphNode;
  links : list GraphLink
}.

(** [typeof e === 'object' ? e.id : e] *)
Definition endpoint_id (e : Endpoint) : string :=
  match e with
  | EId s => s
  | ERef n => id n
  end.

Definition CENTER_ID : string := "AGI_CORE".

(** A node literal with only the fields the built-in data sets. *)
Definition node_lit (i nm : string) (g : Group) (v : Q)
    (d a : option string) : GraphNode :=
  mkNode i nm g v d None a None None None None None None None.

Definition link_lit (s t : string) : GraphLink :=
  mkLink (EId s) (EId t) None.

Definition DEFAULT_GRAPH_DATA : GraphData :=
  {| nodes :=
       [ node_lit "AGI_CORE" "AGI Singularity" center 80
           (Some "The theoretical moment when AI surpasses human intelligence.")
           (Some "Central node of the system.");
         node_lit "Neural_Nets" "Neural Networks" planet 30
           (Some "Computing systems inspired by biological neural networks.") None;
         node_lit "Reasoning" "Reasoning" planet 30
           (Some "The ability to make inferences from data.") None;
         node_lit "Creativity" "Creativity" planet 30
           (Some "Generative capabilities in art and text.") None;
         node_lit "Ethics" "AI Ethics" planet 30
           (Some "Moral principles governing AI behavior.") None;
         node_lit "Robotics" "Embodied AI" planet 30
           (Some "AI operating in the physical world.") None;
         node_lit "Transformers" "Transformers" satellite 15
           (Some "Attention-based architecture.") None;
         node_lit "Backprop" "Backpropagation" satellite 10
           (Some "Gradient descent optimization.") None;
         node_lit "CoT" "Chain of Thought" satellite 15
           (Some "Step-by-step reasoning technique.") None;
         node_lit "Symbolic" "Neuro-Symbolic" satellite 15
           (Some "Combining logic with neural nets.") None;
         node_lit "Diffusion" "Diffusion Models" satellite 15
           (Some "Image generation technique.") None;
         node_lit "LLMs" "Large Language Models" satellite 15
           (Some "Text generation foundations.") None;
         node_lit "Alignment" "Alignment" satellite 15
           (Some "Ensuring AI goals match human values.") None;
         node_lit "Bias" "Bias Mitigation" satellite 15
           (Some "Reducing unfair prejudice in models.") None;
         node_lit "Sim2Real" "Sim2Real" satellite 15
           (Some "Transferring simulation skills to reality.") None;
         node_lit "Sensors" "Multimodal Sensors" satellite 10
           (Some "Vision, touch, and audio integration.") None ];
     links :=
       [ link_lit "AGI_CORE" "Neural_Nets";
         link_lit "AGI_CORE" "Reasoning";
         link_lit "AGI_CORE" "Creativity";
         link_lit "AGI_CORE" "Ethics";
         link_lit "AGI_CORE" "Robotics";
         link_lit "Neural_Nets" "Transformers";
         link_lit "Neural_Nets" "Backprop";
         link_lit "Reasoning" "CoT";
         link_lit "Reasoning" "Symbolic";
         link_lit "Creativity" "Diffusion";
         link_lit "Creativity" "LLMs";
         link_lit "Ethics" "Alignment";
         link_lit "Ethics" "Bias";
         link_lit "Robotics" "Sim2Real";
         link_lit "Robotics" "Sensors" ] |}.

(** ** The derivation of [src/App.tsx] *)

(** *** Adjacency list (lines 49-57)

    [neighbors] is created as [{}]: a property read falls back to
    [Object.prototype], whose members below are functions (or, for
    [__proto__], the prototype object): truthy values without [push] or
    [some]. *)

Definition OBJECT_PROTOTYPE : list string :=
  [ "constructor"; "__defineGetter__"; "__defineSetter__"; "hasOwnProperty";
    "__lookupGetter__"; "__lookupSetter__"; "isPrototypeOf";
    "propertyIsEnumerable"; "toString"; "valueOf"; "__proto__";
    "toLocaleString" ].

Definition inherited (k : string) : bool := bool_decide (k ∈ OBJECT_PROTOTYPE).

(** What [neighbors[k]] evaluates to. *)
Inductive Slot :=
| Own (l : list string)
| Inherited
| Undefined.

Definition nb_read (nb : gmap string (list string)) (k : string) : Slot :=
  match nb !! k with
  | Some l => Own l
  | None => if inherited k then Inherited else Undefined
  end.

(** [if (!neighbors[k]) neighbors[k] = []]: only [undefined] is falsy. *)
Definition nb_init (k : string) (nb : gmap string (list string))
    : gmap string (list string) :=
  match nb_read nb k with
  | Undefined => <[k := []]> nb
  | Own _ | Inherited => nb
  end.

(** [neighbors[k].push(v)]: a [TypeError] unless the value is an array. *)
Definition nb_push (k v : string) (nb : gmap string (list string))
    : Result (gmap string (list string)) :=
  match nb_read nb k with
  | Own l => Ok (<[k := l ++ [v]]> nb)
  | Inherited | Undefined => Throw TypeError
  end.

(** The body of [masterData.links.forEach(link => ...)]. *)
Definition add_link (nb : gmap string (list string)) (l : GraphLink)
    : Result (gmap string (list string)) :=
  let s := endpoint_id (source l) in
  let t := endpoint_id (target l) in
  nb1 ←! nb_push s t (nb_init t (nb_init s nb));
  nb_push t s nb1.

Definition neighbors (masterData : GraphData)
    : Result (gmap string (list string)) :=
  foldM add_link (links masterData) ∅.

(** *** The two modes *)

Record Derived := mkDerived {
  visibleData : GraphData;
  highlightedNodeIds : gset string
}.

(** [new Set(ns.map(n => n.id))] *)
Definition id_set (ns : list GraphNode) : gset string :=
  list_to_set (map id ns).

(** [n.name.toLowerCase().includes(q) || n.desc?.toLowerCase().includes(q)] *)
Definition matches_query `{Engine} (lowerQuery : string) (n : GraphNode) : bool :=
  Str.includes (toLowerCase (name n)) lowerQuery
  || match desc n with
     | Some d => Str.includes (toLowerCase d) lowerQuery
     | None => false
     end.

(** [ls.forEach(link => { if (ids.has(s) && ids.has(t)) finalLinks.push(link) })] *)
Definition links_within (ids : gset string) (ls : list GraphLink) : list GraphLink :=
  filter (λ l, endpoint_id (source l) ∈ ids ∧ endpoint_id (target l) ∈ ids) ls.

(** [myNeighbors.some(nid => expandedNodes.has(nid))] on an array. *)
Definition isConnectedToExpanded (expandedNodes : gset string)
    (myNeighbors : list string) : bool :=
  existsb (λ nid, bool_decide (nid ∈ expandedNodes)) myNeighbors.

(** The body of [masterData.nodes.forEach(node => ...)] in explore mode;
    the state is [nodesToShow].  For a satellite, [neighbors[node.id] || []]
    is the own array, [[]] when the read gives [undefined], and the
    inherited member otherwise, on which [.some] is not a function. *)
Definition show_step (nb : gmap string (list string))
    (activeGroups expandedNodes : gset string)
    (nodesToShow : gset string) (node : GraphNode) : Result (gset string) :=
  if negb (bool_decide (group_name (group node) ∈ activeGroups)) then Ok nodesToShow
  else match group node with
       | center => Ok (nodesToShow ∪ {[id node]})
       | planet => Ok (nodesToShow ∪ {[id node]})
       | satellite =>
           match nb_read nb (id node) with
           | Inherited => Throw TypeError
           | Own myNeighbors =>
               if isConnectedToExpanded expandedNodes myNeighbors
               then Ok (nodesToShow ∪ {[id node]})
               else Ok nodesToShow
           | Undefined =>
               if isConnectedToExpanded expandedNodes []
               then Ok (nodesToShow ∪ {[id node]})
               else Ok nodesToShow
           end
       end.

Definition nodesToShow (nb : gmap string (list string)) (masterData : GraphData)
    (activeGroups expandedNodes : gset string) : Result (gset string) :=
  foldM (show_step nb activeGroups expandedNodes) (nodes masterData) ∅.

(** The function passed to [useMemo] (lines 29-161).  The adjacency loop
    runs before the mode is tested.  The locals [visibleIds], [queue] and
    [centerNode] of the source are computed but never read, so they do not
    appear. *)
Definition derive `{Engine} (masterData : GraphData)
    (activeGroups expandedNodes : gset string)
    (searchQuery : string) : Result Derived :=
  let filteredNodes :=
    filter (λ n, group_name (group n) ∈ activeGroups) (nodes masterData) in
  let filteredNodeIds := id_set filteredNodes in
  nb ←! neighbors masterData;
  let isSearching := (0 <? String.length searchQuery)%nat in
  if isSearching then
    let lowerQuery := toLowerCase searchQuery in
    let matches := List.filter (matches_query lowerQuery) (nodes masterData) in
    let matchIds := id_set matches in
    Ok {| visibleData :=
            {| nodes := filteredNodes;
               links := links_within filteredNodeIds (links masterData) |};
          highlightedNodeIds := matchIds |}
  else
    shown ←! nodesToShow nb masterData activeGroups expandedNodes;
    Ok {| visibleData :=
            {| nodes := filter (λ n, id n ∈ shown) (nodes masterData);
               links := links_within shown (links masterData) |};
          highlightedNodeIds := ∅ |}.

Definition ALL_GROUPS : gset string := {[ "center"; "planet"; "satellite" ]}.

(** *** Application state and handlers *)

Record AppState := mkApp {
  masterData : GraphData;
  selectedNode : option GraphNode;
  searchQuery : string;
  activeGroups : gset string;
  expandedNodes : gset string
}.

(** The initial [useState] values. *)
Definition initial_state : AppState :=
  {| masterData := DEFAULT_GRAPH_DATA;
     selectedNode := None;
     searchQuery := "";
     activeGroups := ALL_GROUPS;
     expandedNodes := {[ CENTER_ID ]} |}.

(** What the component derives from a state when it renders. *)
Definition render `{Engine} (st : AppState) : Result Derived :=
  derive (masterData st) (activeGroups st) (expandedNodes st) (searchQuery st).

(** The updater passed to [setExpandedNodes] (lines 171-179). *)
Definition toggle (i : string) (prev : gset string) : gset string :=
  if bool_decide (i ∈ prev) then prev ∖ {[ i ]} else prev ∪ {[ i ]}.

(** Lines 165-181.  [!searchQuery] holds exactly for the empty string. *)
Definition handleNodeClick (node : GraphNode) (st : AppState) : AppState :=
  let st1 :=
    {| masterData := masterData st;
       selectedNode := Some node;
       searchQuery := searchQuery st;
       activeGroups := activeGroups st;
       expandedNodes := expandedNodes st |} in
  if negb (Str.truthy (searchQuery st)) then
    {| masterData := masterData st1;
       selectedNode := selectedNode st1;
       searchQuery := searchQuery st1;
       activeGroups := activeGroups st1;
       expandedNodes := toggle (id node) (expandedNodes st1) |}
  else st1.

(** [toggleGroup] (lines 210-217). *)
Definition toggleGroup (grp : string) (st : AppState) : AppState :=
  {| masterData := masterData st;
     selectedNode := selectedNode st;
     searchQuery := searchQuery st;
     activeGroups := toggle grp (activeGroups st);
     expandedNodes := expandedNodes st |}.

(** [handleReset] (lines 201-208); [confirmed] is the answer to
    [window.confirm]. *)
Definition handleReset (confirmed : bool) (st : AppState) : AppState :=
  if confirmed then
    {| masterData := DEFAULT_GRAPH_DATA;
       selectedNode := None;
       searchQuery := "";
       activeGroups := activeGroups st;
       expandedNodes := {[ CENTER_ID ]} |}
  else st.

(** The state updates of [handleFileUpload] (lines 183-199) once the
    promise is settled: a resolved graph replaces the data and resets the
    expansion, a rejection leaves the state as it is. *)
Definition handleFileUpload (outcome : string + GraphData) (st : AppState)
    : AppState :=
  match outcome with
  | inr newData =>
      {| masterData := newData;
         selectedNode := None;
         searchQuery := searchQuery st;
         activeGroups := activeGroups st;
         expandedNodes := {[ CENTER_ID ]} |}
  | inl _ => st
  end.

(** ** CSV ingestion ([src/unnamed/part_000]) *)

Module Csv.

(** A parsed row: the object Papa builds in header mode, as the list of
    its entries in the order [Object.values] enumerates them.  Cells are
    strings ([CsvRow] in the types file). *)
Definition Row := list (string * string).

(** [row[key]]; [None] is [undefined]. *)
Fixpoint get (row : Row) (key : string) : option string :=
  match row with
  | [] => None
  | (k, v) :: rest => if String.eqb k key then Some v else get rest key
  end.

(** [Object.values(row)[0]] *)
Definition first_value (row : Row) : option string :=
  match row with
  | [] => None
  | (_, v) :: _ => Some v
  end.

(** [a || b] on possibly undefined strings. *)
Definition or (a b : option string) : option string :=
  match a with
  | Some s => if Str.truthy s then a else b
  | None => b
  end.

(** [a || ""] at the end of an alias chain. *)
Definition or_empty (a : option string) : string :=
  match a with
  | Some s => s
  | None => ""
  end.

(** [row["主分支"] || row["Name"] || row["Node"] || row["Title"]
    || Object.values(row)[0]]; [||] associates to the left. *)
Definition resolve_name (row : Row) : option string :=
  or (or (or (or (get row "主分支") (get row "Name")) (get row "Node"))
         (get row "Title"))
     (first_value row).

Definition resolve_desc (row : Row) : string :=
  or_empty (or (or (get row "子节点/细节") (get row "Description"))
               (get row "Detail")).

Definition resolve_evidence (row : Row) : string :=
  or_empty (or (or (get row "关键引用/证据") (get row "Evidence"))
               (get row "Reference")).

Definition resolve_analysis (row : Row) : string :=
  or_empty (or (or (get row "分析/洞见") (get row "Analysis"))
               (get row "Insight")).

(** The id a row would get: [None] when the row is dropped before the
    look-up in [uniqueIds] (no usable name, or a name that trims to the
    empty string). *)
Definition clean_id `{Engine} (row : Row) : option string :=
  match resolve_name row with
  | None => None
  | Some nm =>
      if negb (Str.truthy nm) then None
      else let cleanId := trim nm in
           if negb (Str.truthy cleanId) then None else Some cleanId
  end.

(** The locals of the [complete] callback, and the number of nodes built
    from rows so far. *)
Record Acc := mkAcc {
  acc_nodes : list GraphNode;
  acc_links : list GraphLink;
  uniqueIds : gset string;
  draws : nat
}.

Definition center_node : GraphNode :=
  {| id := CENTER_ID;
     name := "AGI Future";
     group := center;
     val := 60;
     desc := Some "The central core of Artificial General Intelligence.";
     evidence := None;
     analysis := Some "System Root";
     color := Some "#f0f9ff";
     x := None; y := None; z := None;
     fx := None; fy := None; fz := None |}.

(** [size] is the number [15 + Math.random() * 15] evaluates to for this
    node. *)
Definition row_node (size : Q) (cleanId : string) (row : Row) : GraphNode :=
  {| id := cleanId;
     name := cleanId;
     group := planet;
     val := size;
     desc := Some (resolve_desc row);
     evidence := Some (resolve_evidence row);
     analysis := Some (resolve_analysis row);
     color := None;
     x := None; y := None; z := None;
     fx := None; fy := None; fz := None |}.

Section Ingest.

Context `{Engine}.

(** [jitter k] is the value of the floating-point expression
    [15 + Math.random() * 15] at its [k]-th evaluation. *)
Variable jitter : nat → Q.

(** The body of [results.data.forEach(row => ...)]. *)
Definition row_step (a : Acc) (row : Row) : Acc :=
  match clean_id row with
  | None => a
  | Some cleanId =>
      if bool_decide (cleanId ∈ uniqueIds a) then a
      else
        {| acc_nodes := acc_nodes a ++ [row_node (jitter (draws a)) cleanId row];
           acc_links := acc_links a ++ [mkLink (EId CENTER_ID) (EId cleanId) None];
           uniqueIds := uniqueIds a ∪ {[ cleanId ]};
           draws := S (draws a) |}
  end.

Definition init_acc : Acc :=
  {| acc_nodes := [center_node];
     acc_links := [];
     uniqueIds := {[ CENTER_ID ]};
     draws := 0 |}.

(** The [complete] callback: from [results.data] to the resolved graph. *)
Definition complete (data : list Row) : GraphData :=
  let a := fold_left row_step data init_acc in
  {| nodes := acc_nodes a; links := acc_links a |}.

(** What Papa hands back: the parsed rows, or an error. *)
Inductive ParseResult :=
| Parsed (data : list Row)
| Failed (error : string).

(** The promise: resolved with a graph or rejected with Papa's error. *)
Definition parseCsvToGraph (r : ParseResult) : string + GraphData :=
  match r with
  | Parsed data => inr (complete data)
  | Failed e => inl e
  end.

End Ingest.

End Csv.

(** ** The renderer's decisions ([src/unnamed/part_002], [GalaxyGraph]) *)

Module Galaxy.

(** [searchActive={searchQuery.length > 0}] ([src/App.tsx], line 236). *)
Definition searchActive (st : AppState) : bool :=
  (0 <? String.length (searchQuery st))%nat.

(** The locals of [nodeThreeObject] (lines 83-117) that decide how a node
    looks.  The sphere radius, which takes a square root of [val], is not
    part of this development. *)
Definition isCenter (node : GraphNode) : bool :=
  bool_decide (group node = center).

Definition isHighlighted (highlightedNodeIds : gset string) (node : GraphNode)
    : bool :=
  bool_decide (id node ∈ highlightedNodeIds).

Definition isDimmed (active : bool) (highlightedNodeIds : gset string)
    (node : GraphNode) : bool :=
  active && negb (isHighlighted highlightedNodeIds node) && negb (isCenter node).

Definition GRAY : Z := 0x334155%Z.

Definition colorHex (active : bool) (highlightedNodeIds : gset string)
    (node : GraphNode) : Z :=
  let byGroup : Z :=
    (if isCenter node then 0x3b82f6
     else if bool_decide (group node = planet) then 0xa855f7
     else if bool_decide (group node = satellite) then 0x14b8a6
     else 0x00f2ff)%Z in
  if isDimmed active highlightedNodeIds node then GRAY else byGroup.

Definition emissiveIntensity (active : bool) (highlightedNodeIds : gset string)
    (node : GraphNode) : Q :=
  if isCenter node || isHighlighted highlightedNodeIds node then 0.8
  else if isDimmed active highlightedNodeIds node then 0.1 else 0.4.

Definition opacity (active : bool) (highlightedNodeIds : gset string)
    (node : GraphNode) : Q :=
  if isDimmed active highlightedNodeIds node then 0.3 else 0.9.

(** [linkColor] (lines 119-130). *)
Definition linkColor (active : bool) (highlightedNodeIds : gset string)
    (link : GraphLink) : string :=
  if active then
    let sourceId := endpoint_id (source link) in
    let targetId := endpoint_id (target link) in
    if bool_decide (sourceId ∈ highlightedNodeIds)
       && bool_decide (targetId ∈ highlightedNodeIds)
    then "rgba(255, 255, 255, 0.6)"
    else "rgba(50, 50, 50, 0.1)"
  else "rgba(6, 182, 212, 0.2)".

End Galaxy.

(** ** The detail panel ([src/unnamed/part_002], [DetailPanel]) *)

Module Detail.

(** [getStat(str, seed)], as a function of [str.length]. *)
Definition getStat (len seed : nat) : nat := (len * seed) mod 100.

(** [influence] and [risk], from the length of [node.id]. *)
Definition influence (idLength : nat) : nat := getStat idLength 17 + 20.
Definition risk (idLength : nat) : nat := getStat idLength 13.

End Detail.

(** ** Specification-side predicates *)

(** Some link of the graph joins [a] and [b], in either direction, once
    each endpoint is resolved to its id. *)
Definition linked (g : GraphData) (a b : string) : Prop :=
  ∃ l, l ∈ links g ∧
    ((endpoint_id (source l) = a ∧ endpoint_id (target l) = b) ∨
     (endpoint_id (target l) = a ∧ endpoint_id (source l) = b)).

(** The tier rule of explore mode. *)
Definition tier_rule (g : GraphData) (ex : gset string) (n : GraphNode) : Prop :=
  group n = center ∨ group n = planet ∨
  (group n = satellite ∧ ∃ nid, linked g (id n) nid ∧ nid ∈ ex).

Definition passes (g : GraphData) (ag ex : gset string) (n : GraphNode) : Prop :=
  group_name (group n) ∈ ag ∧ tier_rule g ex n.

(** The data-model invariant "all node ids are unique". *)
Definition unique_ids (g : GraphData) : Prop := NoDup (map id (nodes g)).

(** Neither endpoint of the link names a member of [Object.prototype]. *)
Definition link_plain (l : GraphLink) : Prop :=
  inherited (endpoint_id (source l)) = false ∧
  inherited (endpoint_id (target l)) = false.

(** The node is not a satellite of an active category whose id names a
    member of [Object.prototype]. *)
Definition sat_plain (ag : gset string) (n : GraphNode) : Prop :=
  group n = satellite → group_name (group n) ∈ ag → inherited (id n) = false.

(** The inputs on which the derivation returns (see [derive_returns_iff]). *)
Definition renders (g : GraphData) (ag : gset string) (q : string) : Prop :=
  Forall link_plain (links g) ∧ (q = "" → Forall (sat_plain ag) (nodes g)).

#[global] Instance link_plain_dec l : Decision (link_plain l).
Proof. unfold link_plain. apply _. Defined.

#[global] Instance sat_plain_dec ag n : Decision (sat_plain ag n).
Proof. unfold sat_plain. apply _. Defined.

#[global] Instance renders_dec g ag q : Decision (renders g ag q).
Proof. unfold renders. apply _. Defined.

(** Decides a closed decidable proposition by evaluation. *)
Ltac by_compute := apply (bool_decide_unpack _); vm_compute; reflexivity.

(** ** The adjacency list *)

Section Adjacency.

Implicit Types (nb : gmap string (list string)) (k v : string).

(** The array recorded under [k], [[]] when there is none. *)
Definition nb_list nb k : list string := default [] (nb !! k).

(** Own properties never shadow a member of [Object.prototype]. *)
Definition nb_inv nb : Prop := ∀ k, is_Some (nb !! k) → inherited k = false.

Lemma nb_inv_empty : nb_inv ∅.
Proof. intros k [l Hl]. by rewrite lookup_empty in Hl. Qed.

Lemma nb_list_empty k : nb_list ∅ k = [].
Proof. unfold nb_list. by rewrite lookup_empty. Qed.

Lemma nb_read_plain nb k :
  inherited k = false →
  nb_read nb k = match nb !! k with Some l => Own l | None => Undefined end.
Proof. intros Hk. unfold nb_read. by rewrite Hk. Qed.

Lemma nb_read_inherited nb k :
  nb_inv nb → inherited k = true → nb_read nb k = Inherited.
Proof.
  intros Hinv Hk. unfold nb_read. destruct (nb !! k) as [l|] eqn:E.
  - assert (inherited k = false) by (apply Hinv; by exists l). congruence.
  - by rewrite Hk.
Qed.

Lemma nb_init_plain nb k' :
  inherited k' = false →
  nb_init k' nb !! k' = Some (nb_list nb k') ∧
  (∀ k, k ≠ k' → nb_init k' nb !! k = nb !! k).
Proof.
  intros Hk. unfold nb_init, nb_list. rewrite nb_read_plain by done.
  destruct (nb !! k') as [l|] eqn:E; simpl.
  - by split.
  - split; [by rewrite lookup_insert_eq|]. intros k Hne.
    by rewrite lookup_insert_ne.
Qed.

Lemma nb_init_list nb k' k : nb_list (nb_init k' nb) k = nb_list nb k.
Proof.
  unfold nb_init, nb_read, nb_list. destruct (nb !! k') as [l|] eqn:E; [done|].
  destruct (inherited k'); [done|].
  destruct (decide (k' = k)) as [->|Hne].
  - by rewrite lookup_insert_eq, E.
  - by rewrite lookup_insert_ne.
Qed.

Lemma nb_init_inv nb k' : nb_inv nb → nb_inv (nb_init k' nb).
Proof.
  intros Hinv k. unfold nb_init, nb_read.
  destruct (nb !! k') as [l|] eqn:E; [apply Hinv|].
  destruct (inherited k') eqn:Hk; [apply Hinv|].
  destruct (decide (k' = k)) as [->|Hne]; [done|].
  rewrite lookup_insert_ne by done. apply Hinv.
Qed.

Lemma nb_push_own nb k v l :
  nb !! k = Some l → nb_push k v nb = Ok (<[k := l ++ [v]]> nb).
Proof. intros Hl. unfold nb_push, nb_read. by rewrite Hl. Qed.

Lemma nb_push_absent nb k v : nb !! k = None → nb_push k v nb = Throw TypeError.
Proof. intros Hl. unfold nb_push, nb_read. rewrite Hl. by destruct (inherited k). Qed.

Lemma nb_list_insert nb k' l k :
  nb_list (<[k' := l]> nb) k = if decide (k' = k) then l else nb_list nb k.
Proof.
  unfold nb_list. case_decide as Hk.
  - subst. by rewrite lookup_insert_eq.
  - by rewrite lookup_insert_ne.
Qed.

Lemma nb_inv_insert nb k l :
  nb_inv nb → inherited k = false → nb_inv (<[k := l]> nb).
Proof.
  intros Hinv Hk k'. destruct (decide (k = k')) as [<-|Hne]; [done|].
  rewrite lookup_insert_ne by done. apply Hinv.
Qed.

(** A link with plain endpoints is recorded at both ends. *)
Lemma add_link_plain nb l :
  link_plain l →
  ∃ nb', add_link nb l = Ok nb' ∧ (nb_inv nb → nb_inv nb') ∧
    ∀ k, nb_list nb' k =
         nb_list nb k
         ++ (if decide (endpoint_id (source l) = k) then [endpoint_id (target l)] else [])
         ++ (if decide (endpoint_id (target l) = k) then [endpoint_id (source l)] else []).
Proof.
  intros [Hs Ht]. unfold add_link.
  set (s := endpoint_id (source l)) in *. set (t := endpoint_id (target l)) in *.
  set (nb0 := nb_init t (nb_init s nb)).
  assert (nb0 !! s = Some (nb_list nb s)) as Hs0.
  { subst nb0. destruct (decide (s = t)) as [<-|Hne].
    - destruct (nb_init_plain (nb_init s nb) s Hs) as [-> _].
      by rewrite nb_init_list.
    - destruct (nb_init_plain (nb_init s nb) t Ht) as [_ ->]; [|done].
      by destruct (nb_init_plain nb s Hs) as [-> _]. }
  assert (nb0 !! t = Some (nb_list nb t)) as Ht0.
  { subst nb0. destruct (nb_init_plain (nb_init s nb) t Ht) as [-> _].
    by rewrite nb_init_list. }
  rewrite (nb_push_own _ _ _ _ Hs0). simpl.
  set (nb1 := <[s := nb_list nb s ++ [t]]> nb0).
  assert (nb1 !! t = Some (nb_list nb1 t)) as Ht1.
  { unfold nb_list. subst nb1. destruct (decide (s = t)) as [<-|Hne].
    - by rewrite lookup_insert_eq.
    - rewrite lookup_insert_ne by done. by rewrite Ht0. }
  rewrite (nb_push_own _ _ _ _ Ht1). eexists. split; [reflexivity|]. split.
  - intros Hinv. apply nb_inv_insert; [|done]. apply nb_inv_insert; [|done].
    by apply nb_init_inv, nb_init_inv.
  - intros k. rewrite nb_list_insert. subst nb1. rewrite !nb_list_insert.
    subst nb0. rewrite !nb_init_list.
    repeat case_decide; rewrite ?app_nil_r, <- ?app_assoc; simpl;
      rewrite ?app_nil_r; congruence.
Qed.

(** A link with an endpoint naming a member of [Object.prototype] makes
    the loop body throw. *)
Lemma add_link_throws nb l :
  nb_inv nb → ¬ link_plain l → add_link nb l = Throw TypeError.
Proof.
  intros Hinv Hnot. unfold add_link.
  set (s := endpoint_id (source l)) in *. set (t := endpoint_id (target l)) in *.
  pose proof (nb_init_inv _ t (nb_init_inv _ s Hinv)) as Hinv0.
  destruct (inherited s) eqn:Hs.
  - rewrite nb_push_absent; [done|].
    destruct (nb_init t (nb_init s nb) !! s) as [l'|] eqn:E; [|done].
    assert (inherited s = false) by (apply Hinv0; by exists l'). congruence.
  - destruct (inherited t) eqn:Ht.
    2:{ exfalso. apply Hnot. by split. }
    destruct (nb_init_plain nb s Hs) as [Hs1 _].
    assert (nb_init t (nb_init s nb) !! s = Some (nb_list nb s)) as Hs0.
    { unfold nb_init at 1. rewrite nb_read_inherited; [done| |done].
      by apply nb_init_inv. }
    rewrite (nb_push_own _ _ _ _ Hs0). simpl.
    rewrite nb_push_absent; [done|].
    assert (s ≠ t) as Hne by (intros ->; congruence).
    rewrite lookup_insert_ne by done.
    destruct (nb_init t (nb_init s nb) !! t) as [l'|] eqn:E; [|done].
    assert (inherited t = false) by (apply Hinv0; by exists l'). congruence.
Qed.

Definition count_source (k : string) (ls : list GraphLink) : nat :=
  length (filter (λ l, endpoint_id (source l) = k) ls).

Definition count_target (k : string) (ls : list GraphLink) : nat :=
  length (filter (λ l, endpoint_id (target l) = k) ls).

Lemma fold_add_link_plain ls nb :
  Forall link_plain ls → nb_inv nb →
  ∃ nb', foldM add_link ls nb = Ok nb' ∧ nb_inv nb' ∧
    (∀ k v, v ∈ nb_list nb' k ↔
       v ∈ nb_list nb k ∨
       ∃ l, l ∈ ls ∧
         ((endpoint_id (source l) = k ∧ endpoint_id (target l) = v) ∨
          (endpoint_id (target l) = k ∧ endpoint_id (source l) = v))) ∧
    (∀ k, length (nb_list nb' k) =
          (length (nb_list nb k) + count_source k ls + count_target k ls)%nat).
Proof.
  revert nb. induction ls as [|l ls IH]; intros nb Hall Hinv.
  - exists nb. split; [done|]. split; [done|]. split.
    + intros k v. split; [by left|]. intros [?|(l & Hl & _)]; [done|].
      by apply elem_of_nil in Hl.
    + intros k. unfold count_source, count_target. simpl. lia.
  - apply Forall_cons in Hall as [Hl Hall].
    destruct (add_link_plain nb l Hl) as (nb1 & Heq & Hinv1 & Hlist).
    destruct (IH nb1 Hall (Hinv1 Hinv)) as (nb' & Hfold & Hinv' & Hmem & Hlen).
    exists nb'. simpl. rewrite Heq. simpl. split; [done|]. split; [done|]. split.
    + intros k v. rewrite Hmem, Hlist, !elem_of_app. split.
      * intros [[?|[H|H]]|(l' & ? & ?)].
        -- by left.
        -- right. exists l. split; [left|]. case_decide; [|by apply elem_of_nil in H].
           apply list_elem_of_singleton in H. left. by split.
        -- right. exists l. split; [left|]. case_decide; [|by apply elem_of_nil in H].
           apply list_elem_of_singleton in H. right. by split.
        -- right. exists l'. split; [by right|done].
      * intros [?|(l' & Hl' & Hends)]; [by left; left|].
        apply elem_of_cons in Hl' as [->|?]; [|right; by exists l'].
        left. right. destruct Hends as [[<- <-]|[<- <-]].
        -- left. rewrite decide_True by done. by apply list_elem_of_singleton.
        -- right. rewrite decide_True by done. by apply list_elem_of_singleton.
    + intros k. rewrite Hlen, Hlist, !length_app. unfold count_source, count_target.
      rewrite !filter_cons. repeat case_decide; simpl; lia.
Qed.

Lemma fold_add_link_throws ls nb :
  nb_inv nb → ¬ Forall link_plain ls → foldM add_link ls nb = Throw TypeError.
Proof.
  revert nb. induction ls as [|l ls IH]; intros nb Hinv Hnot.
  - destruct Hnot. constructor.
  - simpl. destruct (decide (link_plain l)) as [Hl|Hl].
    + destruct (add_link_plain nb l Hl) as (nb1 & -> & Hinv1 & _). simpl.
      apply IH; [by apply Hinv1|]. intros Hall. apply Hnot. by constructor.
    + by rewrite add_link_throws.
Qed.

(** When every link has plain endpoints the adjacency loop returns, and
    what it records under [k] is what is linked to [k]. *)
Lemma neighbors_plain g :
  Forall link_plain (links g) →
  ∃ nb, neighbors g = Ok nb ∧ nb_inv nb ∧
    (∀ k v, v ∈ nb_list nb k ↔ linked g k v) ∧
    (∀ k, length (nb_list nb k) =
          (count_source k (links g) + count_target k (links g))%nat).
Proof.
  intros Hall.
  destruct (fold_add_link_plain (links g) ∅ Hall nb_inv_empty)
    as (nb & Hfold & Hinv & Hmem & Hlen).
  exists nb. split; [done|]. split; [done|]. split.
  - intros k v. rewrite Hmem, nb_list_empty. unfold linked.
    split; [intros [H|H]; [by apply elem_of_nil in H|done] | by right].
  - intros k. by rewrite Hlen, nb_list_empty.
Qed.

Lemma neighbors_throws g :
  ¬ Forall link_plain (links g) → neighbors g = Throw TypeError.
Proof. apply fold_add_link_throws, nb_inv_empty. Qed.

Lemma isConnectedToExpanded_spec ex ns :
  isConnectedToExpanded ex ns = true ↔ ∃ nid, nid ∈ ns ∧ nid ∈ ex.
Proof.
  unfold isConnectedToExpanded. rewrite existsb_exists.
  split; intros (nid & H1 & H2); exists nid.
  - apply bool_decide_eq_true in H2. by rewrite list_elem_of_In.
  - rewrite bool_decide_eq_true. by rewrite <- list_elem_of_In.
Qed.

End Adjacency.

(** ** Explore mode: the set [nodesToShow] *)

Section Explore.

Variables (g : GraphData) (ag ex : gset string).
Variable nb : gmap string (list string).
Hypothesis nb_ok : nb_inv nb.
Hypothesis nb_links : ∀ k v, v ∈ nb_list nb k ↔ linked g k v.

(** On a plain id the satellite test reads the recorded array. *)
Lemma satellite_gate n :
  inherited (id n) = false →
  ∃ l, (nb_read nb (id n) = Own l ∨ (nb_read nb (id n) = Undefined ∧ l = [])) ∧
       (isConnectedToExpanded ex l = true ↔ ∃ nid, linked g (id n) nid ∧ nid ∈ ex).
Proof.
  intros Hid. exists (nb_list nb (id n)). split.
  - rewrite nb_read_plain by done. unfold nb_list.
    destruct (nb !! id n); [by left|by right].
  - rewrite isConnectedToExpanded_spec.
    split; intros (nid & H1 & H2); exists nid; (split; [|done]); by apply nb_links.
Qed.

Lemma show_step_plain acc n :
  sat_plain ag n →
  ∃ acc', show_step nb ag ex acc n = Ok acc' ∧
    ∀ i, i ∈ acc' ↔ i ∈ acc ∨ (id n = i ∧ passes g ag ex n).
Proof.
  intros Hplain. unfold show_step, passes, tier_rule.
  destruct (bool_decide (group_name (group n) ∈ ag)) eqn:Hag; simpl.
  2:{ apply bool_decide_eq_false in Hag. exists acc. split; [done|]. intuition. }
  apply bool_decide_eq_true in Hag.
  destruct (group n) eqn:Hg.
  - eexists. split; [done|]. intros i.
    rewrite elem_of_union, elem_of_singleton. intuition.
  - eexists. split; [done|]. intros i.
    rewrite elem_of_union, elem_of_singleton. intuition.
  - assert (inherited (id n) = false) as Hid by (apply Hplain; [done|by rewrite Hg]).
    destruct (satellite_gate n Hid) as (l & Hread & Hgate).
    assert (∃ acc', (if isConnectedToExpanded ex l then Ok (acc ∪ {[id n]})
                     else Ok acc) = Ok acc' ∧
              ∀ i, i ∈ acc' ↔ i ∈ acc ∨ (id n = i ∧ group_name satellite ∈ ag ∧
                (satellite = center ∨ satellite = planet ∨
                 (satellite = satellite ∧ ∃ nid, linked g (id n) nid ∧ nid ∈ ex))))
      as Hres.
    { destruct (isConnectedToExpanded ex l) eqn:Hc.
      - eexists. split; [done|]. intros i.
        rewrite elem_of_union, elem_of_singleton.
        destruct Hgate as [Hgate _]. specialize (Hgate eq_refl). intuition.
      - exists acc. split; [done|]. intros i. split; [by left|].
        intros [?|(_ & _ & [?|[?|(_ & Hn)]])]; try done.
        apply Hgate in Hn. congruence. }
    destruct Hread as [->|[-> ->]]; exact Hres.
Qed.

Lemma show_step_throws acc n :
  ¬ sat_plain ag n → show_step nb ag ex acc n = Throw TypeError.
Proof.
  intros Hnot. unfold show_step.
  destruct (decide (group_name (group n) ∈ ag)) as [Hag|Hag].
  2:{ exfalso. apply Hnot. intros _ ?. done. }
  rewrite bool_decide_eq_true_2 by done. simpl.
  destruct (group n) eqn:Hg;
    try (exfalso; apply Hnot; intros ?; congruence).
  destruct (inherited (id n)) eqn:Hid.
  - by rewrite nb_read_inherited.
  - exfalso. apply Hnot. by intros _ _.
Qed.

Lemma fold_show_step_plain ns acc :
  Forall (sat_plain ag) ns →
  ∃ acc', foldM (show_step nb ag ex) ns acc = Ok acc' ∧
    ∀ i, i ∈ acc' ↔ i ∈ acc ∨ ∃ n, n ∈ ns ∧ id n = i ∧ passes g ag ex n.
Proof.
  revert acc. induction ns as [|n ns IH]; intros acc Hall.
  - exists acc. split; [done|]. intros i. split; [by left|].
    intros [?|(n & Hn & _)]; [done|]. by apply elem_of_nil in Hn.
  - apply Forall_cons in Hall as [Hn Hall].
    destruct (show_step_plain acc n Hn) as (acc1 & Heq & H1).
    destruct (IH acc1 Hall) as (acc' & Hfold & H2).
    exists acc'. simpl. rewrite Heq. simpl. split; [done|].
    intros i. rewrite H2, H1. split.
    + intros [[?|[? ?]]|(n' & ? & ? & ?)]; [by left| |].
      * right. exists n. split; [left|]; done.
      * right. exists n'. split; [by right|done].
    + intros [?|(n' & Hn' & ? & ?)]; [by left; left|].
      apply elem_of_cons in Hn' as [->|?].
      * left. by right.
      * right. by exists n'.
Qed.

Lemma fold_show_step_throws ns acc :
  ¬ Forall (sat_plain ag) ns →
  foldM (show_step nb ag ex) ns acc = Throw TypeError.
Proof.
  revert acc. induction ns as [|n ns IH]; intros acc Hnot.
  - destruct Hnot. constructor.
  - simpl. destruct (decide (sat_plain ag n)) as [Hn|Hn].
    + destruct (show_step_plain acc n Hn) as (acc1 & -> & _). simpl.
      apply IH. intros Hall. apply Hnot. by constructor.
    + by rewrite show_step_throws.
Qed.

End Explore.

(** ** When the derivation returns *)

Section Derive.

Context `{Engine}.

(** The search query is empty exactly when [isSearching] is false. *)
Lemma isSearching_false q : (0 <? String.length q)%nat = false ↔ q = "".
Proof. destruct q; simpl; split; intros; try done. Qed.

Lemma isSearching_true q : (0 <? String.length q)%nat = true ↔ q ≠ "".
Proof. destruct q; simpl; split; intros; try done. Qed.

(** Explore mode on an input on which it returns: the view is cut out by
    a set of ids, those carried by a node that passes the category filter
    and the tier rule. *)
Lemma derive_explore g ag ex :
  renders g ag "" →
  ∃ shown,
    derive g ag ex "" =
      Ok {| visibleData :=
              {| nodes := filter (λ n, id n ∈ shown) (nodes g);
                 links := links_within shown (links g) |};
            highlightedNodeIds := ∅ |}
    ∧ ∀ i, i ∈ shown ↔ ∃ n, n ∈ nodes g ∧ id n = i ∧ passes g ag ex n.
Proof.
  intros [Hlinks Hsats]. specialize (Hsats eq_refl).
  destruct (neighbors_plain g Hlinks) as (nb & Hnb & Hinv & Hmem & _).
  destruct (fold_show_step_plain g ag ex nb Hmem (nodes g) ∅ Hsats)
    as (shown & Hfold & Hshown).
  exists shown. split.
  - unfold derive. rewrite Hnb. simpl. unfold nodesToShow. rewrite Hfold. done.
  - intros i. rewrite Hshown. split; [intros [Hi|?]; [|done]|by right].
    by apply elem_of_empty in Hi.
Qed.

(** Search mode on an input on which it returns. *)
Lemma derive_search g ag ex q :
  q ≠ "" → Forall link_plain (links g) →
  derive g ag ex q =
    Ok {| visibleData :=
            {| nodes := filter (λ n, group_name (group n) ∈ ag) (nodes g);
               links :=
                 links_within
                   (id_set (filter (λ n, group_name (group n) ∈ ag) (nodes g)))
                   (links g) |};
          highlightedNodeIds :=
            id_set (List.filter (matches_query (toLowerCase q)) (nodes g)) |}.
Proof.
  intros Hq Hlinks. apply isSearching_true in Hq.
  destruct (neighbors_plain g Hlinks) as (nb & Hnb & _).
  unfold derive. rewrite Hnb. simpl. by rewrite Hq.
Qed.

(** Outside those inputs the derivation throws. *)
Lemma derive_throws g ag ex q :
  ¬ renders g ag q → derive g ag ex q = Throw TypeError.
Proof.
  intros Hnot. unfold derive.
  destruct (decide (Forall link_plain (links g))) as [Hlinks|Hlinks].
  2:{ by rewrite neighbors_throws. }
  destruct (neighbors_plain g Hlinks) as (nb & Hnb & Hinv & Hmem & _).
  rewrite Hnb. simpl.
  destruct (decide (q = "")) as [->|Hq].
  - simpl. unfold nodesToShow. rewrite (fold_show_step_throws g ag ex nb Hinv Hmem); [done|].
    intros Hsats. apply Hnot. by split.
  - exfalso. apply Hnot. by split.
Qed.

Lemma derive_returns_iff g ag ex q :
  (∃ d, derive g ag ex q = Ok d) ↔ renders g ag q.
Proof.
  split.
  - intros [d Hd]. destruct (decide (renders g ag q)) as [?|Hnot]; [done|].
    rewrite derive_throws in Hd by done. discriminate.
  - intros Hr. destruct (decide (q = "")) as [->|Hq].
    + destruct (derive_explore g ag ex Hr) as (shown & -> & _). by eexists.
    + destruct Hr as [Hlinks _]. rewrite derive_search by done. by eexists.
Qed.

Lemma derive_Ok_renders g ag ex q d :
  derive g ag ex q = Ok d → renders g ag q.
Proof. intros Hd. apply (derive_returns_iff g ag ex q). by exists d. Qed.

(** The view returned in explore mode. *)
Lemma explore_view g ag ex d :
  derive g ag ex "" = Ok d →
  ∃ shown,
    d = {| visibleData :=
             {| nodes := filter (λ n, id n ∈ shown) (nodes g);
                links := links_within shown (links g) |};
           highlightedNodeIds := ∅ |}
    ∧ ∀ i, i ∈ shown ↔ ∃ n, n ∈ nodes g ∧ id n = i ∧ passes g ag ex n.
Proof.
  intros Hd. pose proof (derive_Ok_renders _ _ _ _ _ Hd) as Hr.
  destruct (derive_explore g ag ex Hr) as (shown & Heq & Hshown).
  exists shown. split; [congruence|done].
Qed.

(** The view returned in search mode. *)
Lemma search_view g ag ex q d :
  q ≠ "" → derive g ag ex q = Ok d →
  d = {| visibleData :=
           {| nodes := filter (λ n, group_name (group n) ∈ ag) (nodes g);
              links :=
                links_within
                  (id_set (filter (λ n, group_name (group n) ∈ ag) (nodes g)))
                  (links g) |};
         highlightedNodeIds :=
           id_set (List.filter (matches_query (toLowerCase q)) (nodes g)) |}.
Proof.
  intros Hq Hd. pose proof (derive_Ok_renders _ _ _ _ _ Hd) as [Hlinks _].
  rewrite derive_search in Hd by done. congruence.
Qed.

(** When ids are unique, the node carrying an id is determined. *)
Lemma unique_ids_inj g n m :
  unique_ids g → n ∈ nodes g → m ∈ nodes g → id n = id m → n = m.
Proof.
  unfold unique_ids. intros Hnd Hn Hm Hid.
  apply list_elem_of_lookup in Hn as [i Hi].
  apply list_elem_of_lookup in Hm as [j Hj].
  assert (i = j) as ->.
  { eapply NoDup_lookup; [exact Hnd| |].
    - rewrite list_lookup_fmap, Hi. reflexivity.
    - rewrite list_lookup_fmap, Hj. simpl. by rewrite Hid. }
  congruence.
Qed.

(** Visible nodes of explore mode, without any assumption on ids. *)
Lemma explore_visible g ag ex d n :
  derive g ag ex "" = Ok d →
  n ∈ nodes (visibleData d) ↔
  n ∈ nodes g ∧ ∃ m, m ∈ nodes g ∧ id m = id n ∧ passes g ag ex m.
Proof.
  intros Hd. destruct (explore_view g ag ex d Hd) as (shown & -> & Hshown).
  simpl. rewrite list_elem_of_filter, Hshown. tauto.
Qed.

Lemma explore_visible_unique g ag ex d n :
  unique_ids g → derive g ag ex "" = Ok d →
  n ∈ nodes (visibleData d) ↔ n ∈ nodes g ∧ passes g ag ex n.
Proof.
  intros Hu Hd. rewrite (explore_visible g ag ex d n Hd). split.
  - intros (Hn & m & Hm & Hid & Hp). split; [done|].
    by rewrite <- (unique_ids_inj g m n Hu Hm Hn Hid).
  - intros (Hn & Hp). split; [done|]. by exists n.
Qed.

(** In both modes the links are filtered by the ids of the visible
    nodes. *)
Lemma visible_links_filter g ag ex q d :
  derive g ag ex q = Ok d →
  links (visibleData d) =
  filter (λ l, endpoint_id (source l) ∈ map id (nodes (visibleData d)) ∧
               endpoint_id (target l) ∈ map id (nodes (visibleData d)))
    (links g).
Proof.
  intros Hd. destruct (decide (q = "")) as [->|Hq].
  - destruct (explore_view g ag ex d Hd) as (shown & -> & Hshown). simpl.
    unfold links_within. apply list_filter_iff. intros l.
    assert (∀ i, i ∈ shown ↔
              i ∈ map id (filter (λ n, id n ∈ shown) (nodes g))) as Hids.
    { intros i. rewrite list_elem_of_fmap. split.
      - intros Hi. pose proof Hi as Hi'.
        apply Hshown in Hi' as (n & Hn & <- & _).
        exists n. split; [done|]. by apply list_elem_of_filter.
      - intros (n & -> & Hn). by apply list_elem_of_filter in Hn as [? _]. }
    by rewrite !Hids.
  - rewrite (search_view g ag ex q d Hq Hd). simpl.
    unfold links_within, id_set. apply list_filter_iff. intros l.
    by rewrite !elem_of_list_to_set.
Qed.

Lemma visible_nodes_sublist g ag ex q d n :
  derive g ag ex q = Ok d → n ∈ nodes (visibleData d) → n ∈ nodes g.
Proof.
  intros Hd. destruct (decide (q = "")) as [->|Hq].
  - destruct (explore_view g ag ex d Hd) as (shown & -> & _). simpl.
    rewrite list_elem_of_filter. tauto.
  - rewrite (search_view g ag ex q d Hq Hd). simpl.
    rewrite list_elem_of_filter. tauto.
Qed.

End Derive.

(** ** Inputs used in the evaluated statements *)

Definition ends (l : GraphLink) : string * string :=
  (endpoint_id (source l), endpoint_id (target l)).

Definition count_group (grp : Group) (ns : list GraphNode) : nat :=
  length (filter (λ n, group n = grp) ns).

(** What importing a file with the single data row [Name = constructor]
    produces. *)
Definition constructor_graph : GraphData :=
  @Csv.complete ascii_engine (λ _, 20%Q) [ [("Name", "constructor")] ].

(** A satellite whose id names a member of [Object.prototype], and no
    link. *)
Definition valueOf_graph : GraphData :=
  {| nodes := [ node_lit "AGI_CORE" "Core" center 80 None None;
                node_lit "valueOf" "Value" satellite 10 None None ];
     links := [] |}.


Definition lone_planet_graph : GraphData :=
  {| nodes := [ node_lit "A" "A" planet 30 None None ]; links := [] |}.

Definition two_satellites_graph : GraphData :=
  {| nodes := [ node_lit "S1" "S1" satellite 10 None None;
                node_lit "S2" "S2" satellite 10 None None ];
     links := [ link_lit "S1" "S2" ] |}.

Definition Transformers : GraphNode :=
  node_lit "Transformers" "Transformers" satellite 15
    (Some "Attention-based architecture.") None.

Definition Neural_Nets : GraphNode :=
  node_lit "Neural_Nets" "Neural Networks" planet 30
    (Some "Computing systems inspired by biological neural networks.") None.

Definition AGI_CORE : GraphNode :=
  node_lit "AGI_CORE" "AGI Singularity" center 80
    (Some "The theoretical moment when AI surpasses human intelligence.")
    (Some "Central node of the system.").

Lemma default_unique_ids : unique_ids DEFAULT_GRAPH_DATA.
Proof. unfold unique_ids. apply (bool_decide_unpack _). vm_compute. reflexivity. Defined.

Lemma default_renders ag q : renders DEFAULT_GRAPH_DATA ag q.
Proof.
  split.
  - by_compute.
  - intros _. apply Forall_forall. intros n Hn _ _.
    revert n Hn. apply Forall_forall. by_compute.
Defined.

(** ** Explore mode: visible nodes *)

(** C1.  The claim fails on the code for graphs in which a link endpoint
    or an active satellite id names a member of [Object.prototype]: the
    adjacency list is a plain object, and the derivation throws instead of
    returning a view.  The graph obtained by importing one row named
    [constructor] has unique ids, a center, a planet and one link, and
    explore mode throws [TypeError] on it; so does explore mode on a graph
    with an active satellite named [valueOf] and no link. *)
Theorem explore_throws_on_prototype_names :
  map (λ n, (id n, group n)) (nodes constructor_graph)
    = [ ("AGI_CORE", center); ("constructor", planet) ]
  ∧ map ends (links constructor_graph) = [ ("AGI_CORE", "constructor") ]
  ∧ unique_ids constructor_graph
  ∧ @derive ascii_engine constructor_graph ALL_GROUPS {[ CENTER_ID ]} ""
    = Throw TypeError
  ∧ unique_ids valueOf_graph
  ∧ @derive ascii_engine valueOf_graph ALL_GROUPS {[ CENTER_ID ]} ""
    = Throw TypeError.
Proof.
  split; [vm_compute; reflexivity|]. split; [vm_compute; reflexivity|].
  split; [unfold unique_ids; by_compute|]. split; [vm_compute; reflexivity|].
  split; [unfold unique_ids; by_compute|]. vm_compute. reflexivity.
Qed.

(** ** Search mode *)

(** C2.  The claim fails on the code for graphs in which a link endpoint
    names a member of [Object.prototype]: the adjacency loop runs before the
    mode is tested, so search mode throws as well and there is no
    visible-node set, for any expansion set.  Shown on the graph obtained by
    importing one row named [constructor]. *)
Theorem search_throws_on_prototype_endpoint (ex : gset string) :
  @derive ascii_engine constructor_graph ALL_GROUPS ex "core" = Throw TypeError.
Proof. apply derive_throws. intros [Hl _]. revert Hl. by_compute. Qed.

(** ** Visible links *)

(** C6.  The claim fails on the code for graphs in which a link endpoint
    names a member of [Object.prototype]: in both modes the derivation
    throws before any link is filtered, so no visible-link set is returned.
    Shown on the graph obtained by importing one row named
    [constructor]. *)
Theorem no_links_returned_on_prototype_endpoint :
  @derive ascii_engine constructor_graph ALL_GROUPS {[ CENTER_ID ]} ""
    = Throw TypeError
  ∧ @derive ascii_engine constructor_graph ALL_GROUPS {[ CENTER_ID ]} "core"
    = Throw TypeError.
Proof. split; vm_compute; reflexivity. Qed.

(** ** Satellite gating and hidden neighbours *)


(** ** The built-in graph *)

(** C8.  The built-in graph has 1 center, 5 planets, 10 satellites and 15
    links; with the three groups active, [AGI_CORE] and [Neural_Nets]
    expanded and an empty query, the derivation returns a view with exactly
    8 nodes (the center, the 5 planets, the 2 satellites of [Neural_Nets])
    and exactly 7 links (5 from the center to a planet, 2 from
    [Neural_Nets] to its satellites). *)
Theorem default_graph_scenario_B `{Engine} :
  ∃ d, derive DEFAULT_GRAPH_DATA ALL_GROUPS {[ "AGI_CORE"; "Neural_Nets" ]} ""
       = Ok d
  ∧ (count_group center (nodes DEFAULT_GRAPH_DATA) = 1%nat ∧
     count_group planet (nodes DEFAULT_GRAPH_DATA) = 5%nat ∧
     count_group satellite (nodes DEFAULT_GRAPH_DATA) = 10%nat ∧
     length (links DEFAULT_GRAPH_DATA) = 15%nat)
  ∧ length (nodes (visibleData d)) = 8%nat
  ∧ map (λ n, (id n, group n)) (nodes (visibleData d)) =
      [ ("AGI_CORE", center);
        ("Neural_Nets", planet); ("Reasoning", planet); ("Creativity", planet);
        ("Ethics", planet); ("Robotics", planet);
        ("Transformers", satellite); ("Backprop", satellite) ]
  ∧ length (links (visibleData d)) = 7%nat
  ∧ map ends (links (visibleData d)) =
      [ ("AGI_CORE", "Neural_Nets"); ("AGI_CORE", "Reasoning");
        ("AGI_CORE", "Creativity"); ("AGI_CORE", "Ethics");
        ("AGI_CORE", "Robotics");
        ("Neural_Nets", "Transformers"); ("Neural_Nets", "Backprop") ].
Proof.
  eexists. split; [vm_compute; reflexivity|].
  vm_compute. repeat split; reflexivity.
Qed.

(** ** Graphs without the reserved center id *)

Lemma explore_empty_iff `{Engine} g ag ex d :
  derive g ag ex "" = Ok d →
  nodes (visibleData d) = [] ↔ ∀ n, n ∈ nodes g → ¬ passes g ag ex n.
Proof.
  intros Hd. split.
  - intros He n Hn Hp.
    assert (n ∈ nodes (visibleData d)) as Hv
      by (apply (explore_visible g ag ex d n Hd); split; [done|by exists n]).
    rewrite He in Hv. by apply elem_of_nil in Hv.
  - intros Hno. destruct (nodes (visibleData d)) as [|n l] eqn:E; [done|].
    assert (n ∈ nodes (visibleData d)) as Hv by (rewrite E; left).
    apply (explore_visible g ag ex d n Hd) in Hv as (_ & m & Hm & _ & Hp).
    by destruct (Hno m Hm).
Qed.

Lemma filter_none {A} (P : A → Prop) `{∀ x, Decision (P x)} (l : list A) :
  (∀ x, x ∈ l → ¬ P x) → filter P l = [].
Proof.
  induction l as [|x l IH]; intros Hno; [done|].
  rewrite filter_cons, decide_False by (apply Hno; left).
  apply IH. intros y Hy. apply Hno. by right.
Qed.

Lemma no_nodes_no_links `{Engine} g ag ex q d :
  derive g ag ex q = Ok d →
  nodes (visibleData d) = [] → links (visibleData d) = [].
Proof.
  intros Hd He. rewrite (visible_links_filter g ag ex q d Hd), He. simpl.
  apply filter_none. intros l _ [Hl _]. by apply elem_of_nil in Hl.
Qed.

(** C3, refuted as stated: a graph with a single planet and no node with
    the reserved id still shows the planet in explore mode. *)
Lemma lone_planet_still_visible :
  (∀ n, n ∈ nodes lone_planet_graph → id n ≠ CENTER_ID) ∧
  ∃ d, @derive ascii_engine lone_planet_graph ALL_GROUPS {[ CENTER_ID ]} "" = Ok d
       ∧ nodes (visibleData d) = [ node_lit "A" "A" planet 30 None None ].
Proof.
  split.
  - intros n Hn. apply list_elem_of_singleton in Hn as ->. discriminate.
  - eexists. split; vm_compute; reflexivity.
Qed.

(** C3, amended.  On a graph in which no node has the reserved center id,
    explore mode does not return an empty result on that account.  Where
    the derivation returns at all (no link endpoint and no active satellite
    id names a member of [Object.prototype]), it returns the view given by
    the same category filter and tier rule as on any graph: the
    visible-node set is empty exactly when no node passes them, and then no
    link is visible either. *)
Theorem explore_without_center `{Engine} (g : GraphData) (ag ex : gset string) :
  (∀ n, n ∈ nodes g → id n ≠ CENTER_ID) →
  renders g ag "" →
  ∃ d, derive g ag ex "" = Ok d
  ∧ (nodes (visibleData d) = [] ↔
     ∀ n, n ∈ nodes g →
       ¬ (group_name (group n) ∈ ag ∧
          (group n = center ∨ group n = planet ∨
           (group n = satellite ∧ ∃ nid, linked g (id n) nid ∧ nid ∈ ex))))
  ∧ (nodes (visibleData d) = [] → links (visibleData d) = []).
Proof.
  intros _ Hr. destruct (proj2 (derive_returns_iff g ag ex "") Hr) as [d Hd].
  exists d. split; [done|]. split.
  - by apply explore_empty_iff.
  - by apply (no_nodes_no_links g ag ex "").
Qed.

Lemma explore_without_center_witness :
  ((∀ n, n ∈ nodes two_satellites_graph → id n ≠ CENTER_ID) ∧
   renders two_satellites_graph ALL_GROUPS "")
  ∧ ∃ d, @derive ascii_engine two_satellites_graph ALL_GROUPS {[ "S2" ]} "" = Ok d
    ∧ (nodes (visibleData d) = [] ↔
       ∀ n, n ∈ nodes two_satellites_graph →
         ¬ (group_name (group n) ∈ ALL_GROUPS ∧
            (group n = center ∨ group n = planet ∨
             (group n = satellite ∧
              ∃ nid, linked two_satellites_graph (id n) nid ∧
                     nid ∈ ({[ "S2" ]} : gset string)))))
    ∧ (nodes (visibleData d) = [] → links (visibleData d) = []).
Proof.
  assert (∀ n, n ∈ nodes two_satellites_graph → id n ≠ CENTER_ID) as H1.
  { apply Forall_forall. by_compute. }
  assert (renders two_satellites_graph ALL_GROUPS "") as H2 by by_compute.
  split; [by split|].
  exact (@explore_without_center ascii_engine two_satellites_graph ALL_GROUPS
           {[ "S2" ]} H1 H2).
Defined.

(** ** Node selection *)

Lemma truthy_false q : Str.truthy q = false ↔ q = "".
Proof. destruct q; simpl; split; intros; done. Qed.

Lemma handleNodeClick_expanded node st :
  expandedNodes (handleNodeClick node st) =
  if decide (searchQuery st = "") then toggle (id node) (expandedNodes st)
  else expandedNodes st.
Proof.
  unfold handleNodeClick. destruct (searchQuery st); reflexivity.
Qed.

Lemma handleNodeClick_frame node st :
  masterData (handleNodeClick node st) = masterData st ∧
  searchQuery (handleNodeClick node st) = searchQuery st ∧
  activeGroups (handleNodeClick node st) = activeGroups st ∧
  selectedNode (handleNodeClick node st) = Some node.
Proof. unfold handleNodeClick. destruct (searchQuery st); simpl; auto. Qed.

Lemma elem_of_toggle i j (prev : gset string) :
  j ∈ toggle i prev ↔ (j = i ∧ i ∉ prev) ∨ (j ≠ i ∧ j ∈ prev).
Proof.
  unfold toggle. destruct (bool_decide (i ∈ prev)) eqn:E.
  - apply bool_decide_eq_true in E. rewrite elem_of_difference, elem_of_singleton.
    destruct (decide (j = i)); subst; tauto.
  - apply bool_decide_eq_false in E. rewrite elem_of_union, elem_of_singleton.
    destruct (decide (j = i)); subst; tauto.
Qed.

(** C9.  A node-selection event leaves the Expansion Set as it is while
    the query is non-empty; while the query is empty it flips the
    membership of the clicked node's id and of no other id. *)
Theorem node_click_toggles_only_clicked (node : GraphNode) (st : AppState) :
  (searchQuery st ≠ "" →
   expandedNodes (handleNodeClick node st) = expandedNodes st)
  ∧ (searchQuery st = "" →
     (id node ∈ expandedNodes (handleNodeClick node st) ↔
      id node ∉ expandedNodes st)
     ∧ ∀ j, j ≠ id node →
         (j ∈ expandedNodes (handleNodeClick node st) ↔ j ∈ expandedNodes st)).
Proof.
  rewrite handleNodeClick_expanded. split; intros Hq.
  - by rewrite decide_False.
  - rewrite decide_True by done. split.
    + rewrite elem_of_toggle. tauto.
    + intros j Hj. rewrite elem_of_toggle. tauto.
Qed.

Lemma node_click_toggles_only_clicked_witness :
  searchQuery initial_state = "" ∧
  (id Neural_Nets ∈ expandedNodes (handleNodeClick Neural_Nets initial_state) ↔
   id Neural_Nets ∉ expandedNodes initial_state)
  ∧ ∀ j, j ≠ id Neural_Nets →
      (j ∈ expandedNodes (handleNodeClick Neural_Nets initial_state) ↔
       j ∈ expandedNodes initial_state).
Proof.
  split; [reflexivity|].
  exact (proj2 (node_click_toggles_only_clicked Neural_Nets initial_state) eq_refl).
Defined.

(** ** Collapsing the center *)

(** A node of an active category that is a center or a planet is in every
    view explore mode returns, whatever the expansion set. *)
Lemma first_tiers_visible `{Engine} g ag ex d n :
  derive g ag ex "" = Ok d →
  n ∈ nodes g → group_name (group n) ∈ ag → group n ≠ satellite →
  n ∈ nodes (visibleData d).
Proof.
  intros Hd Hn Hag Hg. apply (explore_visible g ag ex d n Hd). split; [done|].
  exists n. split; [done|]. split; [done|]. split; [done|].
  unfold tier_rule. destruct (group n); [by left|by right; left|done].
Qed.

Lemma render_after_click `{Engine} c st :
  searchQuery st = "" →
  render (handleNodeClick c st) =
  derive (masterData st) (activeGroups st) (toggle (id c) (expandedNodes st)) "".
Proof.
  intros Hq. unfold render, handleNodeClick. rewrite Hq. reflexivity.
Qed.

(** C5, refuted as stated: no state obtained by clicking the center node
    while its id is expanded, with the center node in the graph and the
    three groups active, has an empty explore-mode view, with any engine. *)
Lemma center_collapse_never_empties :
  ¬ ∃ (E : Engine) (st : AppState) (c : GraphNode) (d : Derived),
      c ∈ nodes (masterData st) ∧ id c = CENTER_ID ∧ group c = center ∧
      activeGroups st = ALL_GROUPS ∧ searchQuery st = "" ∧
      CENTER_ID ∈ expandedNodes st ∧
      @render E (handleNodeClick c st) = Ok d ∧
      nodes (visibleData d) = [].
Proof.
  intros (E & st & c & d & Hc & _ & Hg & Hag & Hq & _ & Hd & He).
  rewrite render_after_click in Hd by done.
  assert (c ∈ nodes (visibleData d)) as Hv.
  { eapply first_tiers_visible; [exact Hd|done| |congruence].
    rewrite Hg, Hag. by_compute. }
  rewrite He in Hv. by apply elem_of_nil in Hv.
Qed.

(** C5, amended.  Clicking the center node in explore mode while its id
    is expanded removes the center id from the Expansion Set, and with the
    center category active this does not empty the view: where the
    derivation returns (no link endpoint and no active satellite id names a
    member of [Object.prototype]), the view after the click contains the
    center node and every planet whose category is active. *)
Theorem center_collapse_keeps_first_tiers `{Engine} (st : AppState) (c : GraphNode) :
  c ∈ nodes (masterData st) → id c = CENTER_ID → group c = center →
  "center" ∈ activeGroups st → searchQuery st = "" →
  CENTER_ID ∈ expandedNodes st →
  renders (masterData st) (activeGroups st) "" →
  (CENTER_ID ∉ expandedNodes (handleNodeClick c st))
  ∧ ∃ d, render (handleNodeClick c st) = Ok d
    ∧ c ∈ nodes (visibleData d)
    ∧ (∀ n, n ∈ nodes (masterData st) → group n = planet →
            "planet" ∈ activeGroups st → n ∈ nodes (visibleData d))
    ∧ nodes (visibleData d) ≠ [].
Proof.
  intros Hc Hid Hg Hag Hq Hex Hr. split.
  { rewrite handleNodeClick_expanded, decide_True by done.
    rewrite elem_of_toggle, Hid. tauto. }
  rewrite render_after_click by done.
  destruct (proj2 (derive_returns_iff (masterData st) (activeGroups st)
                     (toggle (id c) (expandedNodes st)) "") Hr) as [d Hd].
  exists d. split; [done|].
  assert (c ∈ nodes (visibleData d)) as Hv.
  { eapply first_tiers_visible; [exact Hd|done| |congruence]. by rewrite Hg. }
  split; [exact Hv|]. split.
  - intros n Hn Hp Hpl.
    eapply first_tiers_visible; [exact Hd|done| |congruence]. by rewrite Hp.
  - intros He. rewrite He in Hv. by apply elem_of_nil in Hv.
Qed.

Lemma center_collapse_keeps_first_tiers_witness :
  (AGI_CORE ∈ nodes (masterData initial_state) ∧ id AGI_CORE = CENTER_ID ∧
   group AGI_CORE = center ∧ "center" ∈ activeGroups initial_state ∧
   searchQuery initial_state = "" ∧ CENTER_ID ∈ expandedNodes initial_state ∧
   renders (masterData initial_state) (activeGroups initial_state) "")
  ∧ ∃ d, @render ascii_engine (handleNodeClick AGI_CORE initial_state) = Ok d
    ∧ AGI_CORE ∈ nodes (visibleData d)
    ∧ (∀ n, n ∈ nodes (masterData initial_state) → group n = planet →
            "planet" ∈ activeGroups initial_state → n ∈ nodes (visibleData d))
    ∧ nodes (visibleData d) ≠ [].
Proof.
  assert (AGI_CORE ∈ nodes (masterData initial_state)) as H1 by left.
  assert ("center" ∈ activeGroups initial_state) as H2 by by_compute.
  assert (CENTER_ID ∈ expandedNodes initial_state) as H3 by by_compute.
  pose proof (default_renders ALL_GROUPS "") as H4.
  split;
    [exact (conj H1 (conj eq_refl (conj eq_refl (conj H2 (conj eq_refl (conj H3 H4))))))|].
  exact (proj2 (@center_collapse_keeps_first_tiers ascii_engine initial_state
                  AGI_CORE H1 eq_refl eq_refl H2 eq_refl H3 H4)).
Defined.

(** ** Search mode: the highlight set *)

Lemma append_cons c s t : String c s +:+ t = String c (s +:+ t).
Proof. reflexivity. Qed.

Lemma append_nil t : "" +:+ t = t.
Proof. reflexivity. Qed.

Lemma prefix_spec sub s :
  String.prefix sub s = true ↔ ∃ post, s = sub +:+ post.
Proof.
  revert s. induction sub as [|a sub IH]; intros s.
  - split; [intros _; by exists s | intros _; by destruct s].
  - destruct s as [|b s]; simpl.
    + split; [done | intros [post H]; discriminate].
    + destruct (Ascii.ascii_dec a b) as [->|Hne].
      * rewrite IH. split; intros [post H]; exists post.
        -- by rewrite append_cons, H.
        -- rewrite append_cons in H. congruence.
      * split; [done | intros [post H]; rewrite append_cons in H; congruence].
Qed.

Lemma includes_nil sub :
  Str.includes "" sub = if String.prefix sub "" then true else false.
Proof. reflexivity. Qed.

Lemma includes_cons c s sub :
  Str.includes (String c s) sub =
  if String.prefix sub (String c s) then true else Str.includes s sub.
Proof. reflexivity. Qed.

(** [includes] is the substring relation. *)
Lemma includes_spec s sub :
  Str.includes s sub = true ↔ ∃ pre post, s = pre +:+ sub +:+ post.
Proof.
  induction s as [|c s IH]; [rewrite includes_nil|rewrite includes_cons].
  - destruct (String.prefix sub "") eqn:E.
    + apply prefix_spec in E as [post E]. split; [intros _|done].
      by exists "", post.
    + split; [done|]. intros (pre & post & H).
      destruct pre; [|discriminate]. rewrite append_nil in H.
      assert (String.prefix sub "" = true) as E'
        by (apply prefix_spec; by exists post).
      congruence.
  - destruct (String.prefix sub (String c s)) eqn:E.
    + apply prefix_spec in E as [post E]. split; [intros _|done].
      by exists "", post.
    + rewrite IH. split.
      * intros (pre & post & ->). by exists (String c pre), post.
      * intros (pre & post & H). destruct pre as [|c' pre].
        -- rewrite append_nil in H.
           assert (String.prefix sub (String c s) = true) as E'
             by (apply prefix_spec; by exists post).
           congruence.
        -- rewrite append_cons in H. exists pre, post. congruence.
Qed.

Section Highlight.

Context `{Engine}.

(** [text] contains [q] as a substring once both are put in lower case by
    the engine. *)
Definition contains_ci (text q : string) : Prop :=
  ∃ pre post, toLowerCase text = pre +:+ toLowerCase q +:+ post.

(** The name, or the description when there is one, contains the query. *)
Definition query_match (q : string) (n : GraphNode) : Prop :=
  contains_ci (name n) q ∨ ∃ d, desc n = Some d ∧ contains_ci d q.

Lemma matches_query_spec q n :
  matches_query (toLowerCase q) n = true ↔ query_match q n.
Proof.
  unfold matches_query, query_match, contains_ci.
  rewrite orb_true_iff, includes_spec. destruct (desc n) as [d|].
  - rewrite includes_spec. split; (intros [Hm|Hm]; [by left|right]).
    + by exists d.
    + destruct Hm as (d' & [= <-] & Hm). done.
  - split; (intros [Hm|Hm]; [by left|]); [done|].
    by destruct Hm as (d' & [=] & _).
Qed.

Lemma highlight_spec (g : GraphData) (ag ex : gset string) (q i : string) d :
  q ≠ "" → derive g ag ex q = Ok d →
  i ∈ highlightedNodeIds d ↔
  ∃ n, n ∈ nodes g ∧ id n = i ∧ query_match q n.
Proof.
  intros Hq Hd. rewrite (search_view g ag ex q d Hq Hd). simpl. unfold id_set.
  rewrite elem_of_list_to_set, list_elem_of_fmap. split.
  - intros (n & -> & Hn). apply list_elem_of_In, filter_In in Hn as [Hn Hm].
    exists n. split; [by apply list_elem_of_In|]. split; [done|].
    by apply matches_query_spec.
  - intros (n & Hn & <- & Hm). exists n. split; [done|].
    apply list_elem_of_In, filter_In. split; [by apply list_elem_of_In|].
    by apply matches_query_spec.
Qed.

End Highlight.

(** The characters of the text are in the ASCII range. *)
Definition is_ascii (s : string) : bool :=
  forallb (λ c, (nat_of_ascii c <? 128)%nat) (list_ascii_of_string s).

Definition ascii_text (n : GraphNode) : bool :=
  is_ascii (name n) && match desc n with Some d => is_ascii d | None => true end.

(** C4, refuted as stated: on the built-in graph (ASCII text only) with
    only the [center] category active, the query ["neural"] highlights the
    id of the planet [Neural_Nets], which is not a visible node. *)
Lemma highlight_not_within_visible :
  forallb ascii_text (nodes DEFAULT_GRAPH_DATA) = true ∧
  ∃ r, @derive ascii_engine DEFAULT_GRAPH_DATA {[ "center" ]} {[ CENTER_ID ]}
         "neural" = Ok r
    ∧ "Neural_Nets" ∈ highlightedNodeIds r
    ∧ ("Neural_Nets" ∉ map id (nodes (visibleData r)))
    ∧ map id (nodes (visibleData r)) = [ "AGI_CORE" ].
Proof.
  split; [vm_compute; reflexivity|].
  eexists. split; [vm_compute; reflexivity|].
  split; [by_compute|]. split; [by_compute|]. vm_compute. reflexivity.
Qed.

(** C4, amended.  In search mode, where the derivation returns (no link
    endpoint names a member of [Object.prototype]), the highlight set is the
    set of ids of the nodes of the graph, of any group, whose name or
    description, put in lower case, contains the lower-cased query as a
    substring.  So every visible node that matches is highlighted, and (ids
    unique) a visible node whose id is highlighted matches; ids of matching
    nodes that the category filter hides are in the set as well. *)
Theorem search_highlight_all_matches `{Engine}
    (g : GraphData) (ag ex : gset string) (q : string) :
  q ≠ "" → Forall link_plain (links g) →
  ∃ d, derive g ag ex q = Ok d
  ∧ (∀ i, i ∈ highlightedNodeIds d ↔
          ∃ n, n ∈ nodes g ∧ id n = i ∧ query_match q n)
  ∧ (∀ n, n ∈ nodes (visibleData d) → query_match q n →
          id n ∈ highlightedNodeIds d)
  ∧ (unique_ids g →
     ∀ n, n ∈ nodes (visibleData d) → id n ∈ highlightedNodeIds d →
          query_match q n).
Proof.
  intros Hq Hlinks.
  assert (renders g ag q) as Hr by (split; [done|by intros ->]).
  destruct (proj2 (derive_returns_iff g ag ex q) Hr) as [d Hd].
  exists d. split; [done|]. split; [|split].
  - intros i. by apply (highlight_spec g ag ex).
  - intros n Hn Hm. apply (highlight_spec g ag ex q); [done|done|]. exists n.
    split; [by apply (visible_nodes_sublist g ag ex q d)|done].
  - intros Hu n Hn Hi.
    apply (highlight_spec g ag ex q) in Hi as (m & Hm & Hid & Hq'); [|done|done].
    apply (visible_nodes_sublist g ag ex q d n Hd) in Hn.
    by rewrite <- (unique_ids_inj g m n Hu Hm Hn Hid).
Qed.

Lemma search_highlight_all_matches_witness :
  ("neural" ≠ "" ∧ Forall link_plain (links DEFAULT_GRAPH_DATA))
  ∧ ∃ d, @derive ascii_engine DEFAULT_GRAPH_DATA {[ "center" ]} ∅ "neural" = Ok d
    ∧ (∀ i, i ∈ highlightedNodeIds d ↔
            ∃ n, n ∈ nodes DEFAULT_GRAPH_DATA ∧ id n = i ∧
                 @query_match ascii_engine "neural" n)
    ∧ (∀ n, n ∈ nodes (visibleData d) → @query_match ascii_engine "neural" n →
            id n ∈ highlightedNodeIds d)
    ∧ (unique_ids DEFAULT_GRAPH_DATA →
       ∀ n, n ∈ nodes (visibleData d) → id n ∈ highlightedNodeIds d →
            @query_match ascii_engine "neural" n).
Proof.
  assert ("neural" ≠ "") as Hq by discriminate.
  assert (Forall link_plain (links DEFAULT_GRAPH_DATA)) as Hl by by_compute.
  split; [by split|].
  exact (@search_highlight_all_matches ascii_engine DEFAULT_GRAPH_DATA
           {[ "center" ]} ∅ "neural" Hq Hl).
Defined.

(** ** CSV ingestion *)

Section IngestProofs.

Context {Eng : Engine}.

Variable jitter : nat → Q.

Import Csv.

(** What the accumulator holds about one id: the nodes carrying it and
    the links pointing to it. *)
Definition view (nm : string) (a : Acc) : list GraphNode * list GraphLink :=
  (filter (λ n, id n = nm) (acc_nodes a),
   filter (λ l, endpoint_id (target l) = nm) (acc_links a)).

(** A row is either dropped or appended under a fresh id. *)
Lemma row_step_cases a row :
  row_step jitter a row = a ∨
  ∃ cid, clean_id row = Some cid ∧ (cid ∉ uniqueIds a) ∧
    row_step jitter a row =
    {| acc_nodes := acc_nodes a ++ [row_node (jitter (draws a)) cid row];
       acc_links := acc_links a ++ [mkLink (EId CENTER_ID) (EId cid) None];
       uniqueIds := uniqueIds a ∪ {[ cid ]};
       draws := S (draws a) |}.
Proof.
  unfold row_step. destruct (clean_id row) as [cid|]; [|by left].
  destruct (bool_decide (cid ∈ uniqueIds a)) eqn:E; [by left|].
  apply bool_decide_eq_false in E. right. by exists cid.
Qed.

Lemma view_snoc_other nm a cid k row :
  cid ≠ nm →
  view nm {| acc_nodes := acc_nodes a ++ [row_node (jitter k) cid row];
             acc_links := acc_links a ++ [mkLink (EId CENTER_ID) (EId cid) None];
             uniqueIds := uniqueIds a ∪ {[ cid ]};
             draws := S (draws a) |} = view nm a.
Proof.
  intros Hne. unfold view. simpl. rewrite !filter_app.
  rewrite !filter_cons, !filter_nil. simpl.
  rewrite !decide_False by done. by rewrite !app_nil_r.
Qed.

(** Once an id is in [uniqueIds], nothing is added under it any more. *)
Lemma row_step_frozen nm a row :
  nm ∈ uniqueIds a →
  view nm (row_step jitter a row) = view nm a ∧
  nm ∈ uniqueIds (row_step jitter a row).
Proof.
  intros Hin. destruct (row_step_cases a row) as [->|(cid & _ & Hfresh & ->)];
    [done|].
  split.
  - apply view_snoc_other. intros ->. done.
  - simpl. apply elem_of_union. by left.
Qed.

Lemma fold_frozen nm rows a :
  nm ∈ uniqueIds a →
  view nm (fold_left (row_step jitter) rows a) = view nm a.
Proof.
  revert a. induction rows as [|row rows IH]; intros a Hin; simpl; [done|].
  destruct (row_step_frozen nm a row Hin) as [Hv Hin'].
  by rewrite IH, Hv.
Qed.

(** Rows that resolve to other ids leave an absent id absent. *)
Lemma row_step_absent nm a row :
  nm ∉ uniqueIds a → clean_id row ≠ Some nm →
  view nm (row_step jitter a row) = view nm a ∧
  nm ∉ uniqueIds (row_step jitter a row).
Proof.
  intros Hout Hrow.
  destruct (row_step_cases a row) as [->|(cid & Hcid & _ & ->)]; [done|].
  assert (cid ≠ nm) as Hne by congruence. split.
  - by apply view_snoc_other.
  - simpl. rewrite elem_of_union, elem_of_singleton. intros [?|?]; [done|].
    by apply Hne.
Qed.

Lemma fold_absent nm rows a :
  nm ∉ uniqueIds a → Forall (λ r, clean_id r ≠ Some nm) rows →
  view nm (fold_left (row_step jitter) rows a) = view nm a ∧
  nm ∉ uniqueIds (fold_left (row_step jitter) rows a).
Proof.
  revert a. induction rows as [|row rows IH]; intros a Hout Hall; simpl; [done|].
  apply Forall_cons in Hall as [Hrow Hall].
  destruct (row_step_absent nm a row Hout Hrow) as [Hv Hout'].
  destruct (IH _ Hout' Hall) as [Hv' Hout'']. split; [congruence|done].
Qed.

(** The first row resolving to an absent id is appended. *)
Lemma row_step_accept nm a row :
  nm ∉ uniqueIds a → clean_id row = Some nm →
  view nm (row_step jitter a row) =
    (fst (view nm a) ++ [row_node (jitter (draws a)) nm row],
     snd (view nm a) ++ [mkLink (EId CENTER_ID) (EId nm) None]) ∧
  nm ∈ uniqueIds (row_step jitter a row).
Proof.
  intros Hout Hrow. unfold row_step. rewrite Hrow.
  rewrite bool_decide_eq_false_2 by done. split.
  - unfold view. simpl. rewrite !filter_app, !filter_cons, !filter_nil. simpl.
    by rewrite !decide_True.
  - simpl. apply elem_of_union. right. by apply elem_of_singleton.
Qed.

Lemma view_init nm : nm ≠ CENTER_ID → view nm init_acc = ([], []).
Proof.
  intros Hne. unfold view, init_acc. simpl.
  rewrite filter_cons, filter_nil. simpl. rewrite decide_False; [done|].
  intros Heq. apply Hne. by rewrite <- Heq.
Qed.

(** The view of an id after ingesting rows whose first occurrence of the
    id is [r1]. *)
Lemma view_first_occurrence nm pre r1 rest :
  nm ≠ CENTER_ID →
  Forall (λ r, clean_id r ≠ Some nm) pre →
  clean_id r1 = Some nm →
  view nm (fold_left (row_step jitter) (pre ++ r1 :: rest) init_acc) =
    ([row_node (jitter (draws (fold_left (row_step jitter) pre init_acc))) nm r1],
     [mkLink (EId CENTER_ID) (EId nm) None]).
Proof.
  intros Hne Hpre Hr1. rewrite fold_left_app. simpl.
  assert (nm ∉ uniqueIds init_acc) as H0
    by (simpl; rewrite elem_of_singleton; done).
  destruct (fold_absent nm pre init_acc H0 Hpre) as [Hv Hout].
  destruct (row_step_accept nm _ r1 Hout Hr1) as [Hv1 Hin].
  rewrite fold_frozen by done. rewrite Hv1, Hv, view_init by done. done.
Qed.

(** Every node but the fixed center has its id as name. *)
Lemma fold_names rows a :
  (∀ n, n ∈ acc_nodes a → n = center_node ∨ name n = id n) →
  ∀ n, n ∈ acc_nodes (fold_left (row_step jitter) rows a) →
       n = center_node ∨ name n = id n.
Proof.
  revert a. induction rows as [|row rows IH]; intros a Ha; simpl; [done|].
  apply IH. destruct (row_step_cases a row) as [->|(cid & _ & _ & ->)]; [done|].
  simpl. intros n Hn. apply elem_of_app in Hn as [Hn|Hn]; [by apply Ha|].
  apply list_elem_of_singleton in Hn as ->. by right.
Qed.

Lemma names_are_ids rows nm :
  nm ≠ CENTER_ID → nm ≠ "AGI Future" →
  filter (λ n, name n = nm) (nodes (complete jitter rows)) =
  filter (λ n, id n = nm) (nodes (complete jitter rows)).
Proof.
  intros H1 H2. unfold complete. simpl.
  pose proof (fold_names rows init_acc) as Hn.
  assert (∀ n, n ∈ acc_nodes init_acc → n = center_node ∨ name n = id n) as H0.
  { intros n Hin. apply list_elem_of_singleton in Hin. by left. }
  specialize (Hn H0).
  induction (acc_nodes (fold_left (row_step jitter) rows init_acc)) as [|n ns IH];
    [done|].
  rewrite !filter_cons. rewrite IH by (intros m Hm; apply Hn; by right).
  destruct (Hn n) as [->|Heq]; [by left| |].
  - rewrite !decide_False; [done| |].
    + intros Heq. apply H1. by rewrite <- Heq.
    + intros Heq. apply H2. by rewrite <- Heq.
  - rewrite Heq. done.
Qed.

Lemma row_step_dropped a r : clean_id r = None → row_step jitter a r = a.
Proof. intros Hr. unfold row_step. by rewrite Hr. Qed.

(** A dropped row leaves no trace. *)
Lemma dropped_row_skipped rows1 r rows2 :
  clean_id r = None →
  complete jitter (rows1 ++ r :: rows2) = complete jitter (rows1 ++ rows2).
Proof.
  intros Hr. unfold complete. rewrite !fold_left_app. cbn [fold_left].
  by rewrite row_step_dropped.
Qed.

Lemma clean_id_None r :
  clean_id r = None ↔
  resolve_name r = None ∨
  ∃ s, resolve_name r = Some s ∧ (s = "" ∨ trim s = "").
Proof.
  unfold clean_id. destruct (resolve_name r) as [s|];
    [|split; [intros _; by left|done]].
  split.
  - intros Hc. right. exists s. split; [done|].
    destruct s as [|c s]; [by left|]. right. simpl in Hc.
    by destruct (trim (String c s)).
  - intros [Hc|(s' & [= <-] & [->|Ht])]; [done|done|].
    destruct (Str.truthy s); simpl; [|done]. by rewrite Ht.
Qed.

Lemma clean_id_Some r nm :
  clean_id r = Some nm ↔
  nm ≠ "" ∧ ∃ s, resolve_name r = Some s ∧ s ≠ "" ∧ trim s = nm.
Proof.
  unfold clean_id. destruct (resolve_name r) as [s|].
  - destruct (Str.truthy s) eqn:Es; simpl.
    + assert (s ≠ "") as Hs by (intros ->; discriminate).
      destruct (trim s) as [|c t] eqn:Et; simpl.
      * split; [done|]. intros (Hne & s' & [= <-] & _ & Ht). congruence.
      * split.
        -- intros [= <-]. split; [done|]. by exists s.
        -- intros (_ & s' & [= <-] & _ & Ht). congruence.
    + apply truthy_false in Es as ->. split; [done|].
      by intros (_ & s' & [= <-] & Hne & _).
  - split; [done|]. by intros (_ & s' & [=] & _).
Qed.

End IngestProofs.


Lemma fold_seen {Eng : Engine} (jitter : nat → Q) nm rows a :
  nm ∈ Csv.uniqueIds a →
  nm ∈ Csv.uniqueIds (fold_left (Csv.row_step jitter) rows a).
Proof.
  revert a. induction rows as [|row rows IH]; intros a Hin; simpl; [done|].
  apply IH. by apply row_step_frozen.
Qed.

(** A row that resolves to the center id is dropped wherever it stands. *)
Lemma center_row_dropped {Eng : Engine} (jitter : nat → Q) rows1 r rows2 :
  Csv.clean_id r = Some CENTER_ID →
  Csv.complete jitter (rows1 ++ r :: rows2) = Csv.complete jitter (rows1 ++ rows2).
Proof.
  intros Hr. unfold Csv.complete. rewrite !fold_left_app. cbn [fold_left].
  assert (Csv.row_step jitter (fold_left (Csv.row_step jitter) rows1 Csv.init_acc) r
          = fold_left (Csv.row_step jitter) rows1 Csv.init_acc) as ->; [|done].
  unfold Csv.row_step at 1. rewrite Hr. rewrite bool_decide_eq_true_2; [done|].
  apply fold_seen. simpl. by apply elem_of_singleton.
Qed.

(** C7, refuted as stated: two rows that both resolve to the trimmed
    name ["AGI_CORE"] are dropped, because the set of seen ids starts with
    the center id.  The graph has only the fixed center node, whose name is
    ["AGI Future"]: no node has that name, none carries a row's fields, and
    there is no link. *)
Lemma ingestion_center_name_dropped :
  let rows := [ [("Name", "AGI_CORE"); ("Description", "first")];
                [("Name", " AGI_CORE "); ("Description", "second")] ] in
  let G := @Csv.complete ascii_engine (λ _, 20%Q) rows in
  map (@Csv.clean_id ascii_engine) rows = [ Some "AGI_CORE"; Some "AGI_CORE" ] ∧
  filter (λ n, name n = "AGI_CORE") (nodes G) = [] ∧
  nodes G = [ Csv.center_node ] ∧
  links G = [].
Proof. vm_compute. repeat split; reflexivity. Qed.

(** C7, amended.  When two data rows resolve to the same trimmed name
    [nm] (so [nm] is not empty) and [nm] is not the reserved center id, the
    output graph has exactly one node with id [nm]: the planet built from
    the first row of the input that resolves to [nm], with [nm] as name and
    that row's description, evidence and analysis.  It has exactly one link
    to [nm], from the center id.  Unless [nm] is the center's fixed name
    ["AGI Future"], that node is also the only one named [nm].  A row whose
    name is missing, empty or trims to the empty string is skipped, and so
    is every row that resolves to the center id: the output is the one
    obtained without the row. *)
Theorem ingestion_dedup_first_wins `{Engine} (jitter : nat → Q)
    (pre : list Csv.Row) (r1 : Csv.Row) (mid : list Csv.Row) (r2 : Csv.Row)
    (post : list Csv.Row) (nm : string) :
  nm ≠ CENTER_ID →
  Forall (λ r, Csv.clean_id r ≠ Some nm) pre →
  Csv.clean_id r1 = Some nm →
  Csv.clean_id r2 = Some nm →
  let G := Csv.complete jitter (pre ++ r1 :: mid ++ r2 :: post) in
  nm ≠ ""
  ∧ (∃ size, filter (λ n, id n = nm) (nodes G) = [ Csv.row_node size nm r1 ])
  ∧ filter (λ l, endpoint_id (target l) = nm) (links G)
      = [ mkLink (EId CENTER_ID) (EId nm) None ]
  ∧ (nm ≠ "AGI Future" →
     filter (λ n, name n = nm) (nodes G) = filter (λ n, id n = nm) (nodes G))
  ∧ (∀ rows1 r rows2,
       Csv.resolve_name r = None ∨
       (∃ s, Csv.resolve_name r = Some s ∧ (s = "" ∨ trim s = "")) →
       Csv.complete jitter (rows1 ++ r :: rows2)
       = Csv.complete jitter (rows1 ++ rows2))
  ∧ (∀ rows1 r rows2,
       Csv.clean_id r = Some CENTER_ID →
       Csv.complete jitter (rows1 ++ r :: rows2)
       = Csv.complete jitter (rows1 ++ rows2)).
Proof.
  intros Hne Hpre Hr1 Hr2 G.
  pose proof (view_first_occurrence jitter nm pre r1 (mid ++ r2 :: post)
                Hne Hpre Hr1) as Hv.
  unfold view in Hv. injection Hv as Hn Hl.
  split; [|split; [|split; [|split; [|split]]]].
  - by apply clean_id_Some in Hr1 as [? _].
  - eexists. exact Hn.
  - exact Hl.
  - intros Hname. by apply names_are_ids.
  - intros rows1 r rows2 Hr. apply dropped_row_skipped. by apply clean_id_None.
  - intros rows1 r rows2 Hr. by apply center_row_dropped.
Qed.

Lemma ingestion_dedup_first_wins_witness :
  let pre := [ [("Name", "  ")]; [("Name", "AGI_CORE")] ] in
  let r1 := [("Name", " Foo "); ("Description", "Bar")] in
  let r2 := [("主分支", "Foo"); ("Description", "Baz")] in
  ("Foo" ≠ CENTER_ID ∧
   Forall (λ r, @Csv.clean_id ascii_engine r ≠ Some "Foo") pre ∧
   @Csv.clean_id ascii_engine r1 = Some "Foo" ∧
   @Csv.clean_id ascii_engine r2 = Some "Foo")
  ∧ (∃ size,
       filter (λ n, id n = "Foo")
         (nodes (@Csv.complete ascii_engine (λ _, 20%Q) (pre ++ r1 :: [] ++ r2 :: [])))
       = [ Csv.row_node size "Foo" r1 ])
  ∧ filter (λ l, endpoint_id (target l) = "Foo")
      (links (@Csv.complete ascii_engine (λ _, 20%Q) (pre ++ r1 :: [] ++ r2 :: [])))
    = [ mkLink (EId CENTER_ID) (EId "Foo") None ].
Proof.
  intros pre r1 r2.
  assert ("Foo" ≠ CENTER_ID) as H1 by discriminate.
  assert (Forall (λ r, @Csv.clean_id ascii_engine r ≠ Some "Foo") pre) as H2
    by (repeat constructor; discriminate).
  split; [exact (conj H1 (conj H2 (conj eq_refl eq_refl)))|].
  pose proof (@ingestion_dedup_first_wins ascii_engine (λ _, 20%Q) pre r1 [] r2 []
                "Foo" H1 H2 eq_refl eq_refl) as (_ & Hn & Hl & _).
  exact (conj Hn Hl).
Defined.

(** The same input evaluated: one node and one link for ["Foo"], built
    from the first of the two rows. *)
Example ingestion_dedup_run :
  let G := @Csv.complete ascii_engine (λ _, 20%Q)
             [ [("Name", "  ")];
               [("Name", " Foo "); ("Description", "Bar")];
               [("主分支", "Foo"); ("Description", "Baz")] ] in
  map (λ n, (id n, name n, desc n)) (nodes G) =
    [ ("AGI_CORE", "AGI Future",
       Some "The central core of Artificial General Intelligence.");
      ("Foo", "Foo", Some "Bar") ] ∧
  map ends (links G) = [ ("AGI_CORE", "Foo") ].
Proof. vm_compute. split; reflexivity. Qed.

(** Scenario A of the specification. *)
Example ingestion_scenario_A :
  let G := @Csv.complete ascii_engine (λ _, 20%Q)
             [ [("Name", "Foo"); ("Description", "Bar")] ] in
  map id (nodes G) = [ "AGI_CORE"; "Foo" ] ∧
  map ends (links G) = [ ("AGI_CORE", "Foo") ].
Proof. vm_compute. split; reflexivity. Qed.

(** * Further properties of the code *)

(** ** Adjacency list *)

Lemma nb_read_own nb k l : nb_read nb k = Own l ↔ nb !! k = Some l.
Proof.
  unfold nb_read. destruct (nb !! k) as [l'|].
  - split; intros [= ->]; done.
  - destruct (inherited k); split; intros; discriminate.
Qed.

(** X1.  When no link endpoint names a member of [Object.prototype], the
    adjacency loop returns, and what it records is the undirected link
    relation after endpoints are resolved to ids: [neighbors[k]] is an own
    array containing [v] exactly when some link joins [k] and [v], whichever
    way it points; so [v] is recorded under [k] exactly when [k] is recorded
    under [v]. *)
Theorem adjacency_undirected (g : GraphData) :
  Forall link_plain (links g) →
  ∃ nb, neighbors g = Ok nb
  ∧ (∀ k v, (∃ l, nb_read nb k = Own l ∧ v ∈ l) ↔ linked g k v)
  ∧ (∀ k v, (∃ l, nb_read nb k = Own l ∧ v ∈ l) ↔
            (∃ l, nb_read nb v = Own l ∧ k ∈ l)).
Proof.
  intros Hall. destruct (neighbors_plain g Hall) as (nb & Hnb & _ & Hmem & _).
  exists nb. split; [done|].
  assert (∀ k v, (∃ l, nb_read nb k = Own l ∧ v ∈ l) ↔ linked g k v) as Hown.
  { intros k v. rewrite <- Hmem. unfold nb_list. split.
    - intros (l & Hl & Hv). apply nb_read_own in Hl. by rewrite Hl.
    - intros Hv. destruct (nb !! k) as [l|] eqn:E.
      + exists l. split; [by apply nb_read_own|done].
      + by apply elem_of_nil in Hv. }
  split; [exact Hown|].
  intros k v. rewrite !Hown. unfold linked.
  split; intros (l & Hl & Hends); exists l; (split; [done|]); tauto.
Qed.

Lemma adjacency_undirected_witness :
  Forall link_plain (links DEFAULT_GRAPH_DATA)
  ∧ ∃ nb, neighbors DEFAULT_GRAPH_DATA = Ok nb
    ∧ (∀ k v, (∃ l, nb_read nb k = Own l ∧ v ∈ l) ↔ linked DEFAULT_GRAPH_DATA k v)
    ∧ (∀ k v, (∃ l, nb_read nb k = Own l ∧ v ∈ l) ↔
              (∃ l, nb_read nb v = Own l ∧ k ∈ l)).
Proof.
  assert (Forall link_plain (links DEFAULT_GRAPH_DATA)) as H by by_compute.
  split; [exact H|]. exact (adjacency_undirected DEFAULT_GRAPH_DATA H).
Defined.

(** X2.  Links are not de-duplicated when the adjacency list is built
    (endpoints plain): the array recorded under [k] has one entry per link
    end at [k], so a parallel link repeats a neighbour and a self-link counts
    twice; where nothing is recorded, no link ends. *)
Theorem adjacency_degree (g : GraphData) :
  Forall link_plain (links g) →
  ∃ nb, neighbors g = Ok nb
  ∧ ∀ k, match nb !! k with
         | Some l =>
             length l = (count_source k (links g) + count_target k (links g))%nat
         | None =>
             (count_source k (links g) + count_target k (links g) = 0)%nat
         end.
Proof.
  intros Hall. destruct (neighbors_plain g Hall) as (nb & Hnb & _ & _ & Hlen).
  exists nb. split; [done|]. intros k. specialize (Hlen k).
  unfold nb_list in Hlen. by destruct (nb !! k) as [l|].
Qed.

Lemma adjacency_degree_witness :
  Forall link_plain (links DEFAULT_GRAPH_DATA)
  ∧ ∃ nb, neighbors DEFAULT_GRAPH_DATA = Ok nb
    ∧ ∀ k, match nb !! k with
           | Some l =>
               length l = (count_source k (links DEFAULT_GRAPH_DATA)
                           + count_target k (links DEFAULT_GRAPH_DATA))%nat
           | None =>
               (count_source k (links DEFAULT_GRAPH_DATA)
                + count_target k (links DEFAULT_GRAPH_DATA) = 0)%nat
           end.
Proof.
  assert (Forall link_plain (links DEFAULT_GRAPH_DATA)) as H by by_compute.
  split; [exact H|]. exact (adjacency_degree DEFAULT_GRAPH_DATA H).
Defined.

(** ** The derived view *)

(** X5.  The derivation throws exactly on the inputs outside [renders]:
    it throws [TypeError] iff some link endpoint names a member of
    [Object.prototype] or, in explore mode, some satellite of an active
    category has such an id; on every other input it returns a view.  This
    does not depend on the Expansion Set. *)
Theorem derive_throws_exactly `{Engine} (g : GraphData) (ag ex : gset string)
    (q : string) :
  (derive g ag ex q = Throw TypeError ↔
   (∃ l, l ∈ links g ∧
         (inherited (endpoint_id (source l)) = true ∨
          inherited (endpoint_id (target l)) = true))
   ∨ (q = "" ∧ ∃ n, n ∈ nodes g ∧ group n = satellite ∧
                    group_name (group n) ∈ ag ∧ inherited (id n) = true))
  ∧ ((∃ d, derive g ag ex q = Ok d) ↔ renders g ag q)
  ∧ (∀ ex', (∃ d, derive g ag ex q = Ok d) ↔ (∃ d, derive g ag ex' q = Ok d)).
Proof.
  assert (¬ renders g ag q ↔
    (∃ l, l ∈ links g ∧
          (inherited (endpoint_id (source l)) = true ∨
           inherited (endpoint_id (target l)) = true))
    ∨ (q = "" ∧ ∃ n, n ∈ nodes g ∧ group n = satellite ∧
                     group_name (group n) ∈ ag ∧ inherited (id n) = true)) as Hbad.
  { unfold renders. split.
    - intros Hnot. destruct (decide (Forall link_plain (links g))) as [Hl|Hl].
      + right. destruct (decide (q = "")) as [->|Hq]; [|by destruct Hnot].
        split; [done|].
        destruct (decide (Forall (sat_plain ag) (nodes g))) as [Hs|Hs];
          [by destruct Hnot|].
        apply not_Forall_Exists in Hs; [|apply _].
        apply Exists_exists in Hs as (n & Hn & Hbad). exists n. split; [done|].
        destruct (decide (group n = satellite)) as [Hg|Hg];
          [|exfalso; apply Hbad; intros ? ?; done].
        destruct (decide (group_name (group n) ∈ ag)) as [Ha|Ha];
          [|exfalso; apply Hbad; intros ? ?; done].
        destruct (inherited (id n)) eqn:Hi; [done|].
        exfalso. apply Hbad. by intros _ _.
      + left. apply not_Forall_Exists in Hl; [|apply _].
        apply Exists_exists in Hl as (l & Hin & Hbad). exists l. split; [done|].
        destruct (inherited (endpoint_id (source l))) eqn:E1; [by left|].
        destruct (inherited (endpoint_id (target l))) eqn:E2; [by right|].
        exfalso. apply Hbad. by split.
    - intros [(l & Hin & Hbad)|(-> & n & Hn & Hg & Ha & Hi)] [Hl Hs].
      + rewrite Forall_forall in Hl. destruct (Hl l Hin) as [H1 H2].
        destruct Hbad; congruence.
      + specialize (Hs eq_refl). rewrite Forall_forall in Hs.
        specialize (Hs n Hn Hg Ha). congruence. }
  split; [|split].
  - rewrite <- Hbad. split.
    + intros Ht Hr. apply (derive_returns_iff g ag ex q) in Hr as [d Hd]. congruence.
    + apply derive_throws.
  - apply derive_returns_iff.
  - intros ex'. by rewrite !derive_returns_iff.
Qed.

(** X15.  On a graph with unique node ids on which explore mode returns,
    a node is in the returned view iff it is a node of the graph, its group
    is active, and it is a center, a planet, or a satellite with at least
    one undirected neighbour in the Expansion Set; in particular a satellite
    with two neighbours is visible as soon as either is expanded.  The
    highlight set is empty. *)
Theorem explore_rule_when_returned `{Engine} (g : GraphData) (ag ex : gset string) :
  unique_ids g → renders g ag "" →
  ∃ d, derive g ag ex "" = Ok d
  ∧ (∀ n, n ∈ nodes (visibleData d) ↔
          n ∈ nodes g ∧ group_name (group n) ∈ ag ∧
          (group n = center ∨ group n = planet ∨
           (group n = satellite ∧ ∃ nid, linked g (id n) nid ∧ nid ∈ ex)))
  ∧ (∀ n p1 p2,
        n ∈ nodes g → group n = satellite → group_name (group n) ∈ ag →
        linked g (id n) p1 → linked g (id n) p2 → p1 ≠ p2 →
        p1 ∈ ex ∨ p2 ∈ ex → n ∈ nodes (visibleData d))
  ∧ highlightedNodeIds d = ∅.
Proof.
  intros Hu Hr. destruct (proj2 (derive_returns_iff g ag ex "") Hr) as [d Hd].
  exists d. split; [done|]. split; [|split].
  - intros n. rewrite (explore_visible_unique g ag ex d n Hu Hd).
    unfold passes, tier_rule. tauto.
  - intros n p1 p2 Hn Hs Hag L1 L2 _ Hex.
    apply (explore_visible_unique g ag ex d n Hu Hd). split; [done|].
    split; [done|]. right; right. split; [done|].
    destruct Hex; [by exists p1 | by exists p2].
  - by destruct (explore_view g ag ex d Hd) as (shown & -> & _).
Qed.

(** The uniqueness of ids is needed: when a planet and a satellite share
    an id, the planet puts the id into [nodesToShow] and the satellite is
    shown with it, although none of its neighbours is expanded. *)
Definition shared_id_graph : GraphData :=
  {| nodes := [ node_lit "a" "A" planet 1 None None;
                node_lit "a" "B" satellite 1 None None ];
     links := [] |}.

Example explore_shared_id :
  ∃ d, @derive ascii_engine shared_id_graph ALL_GROUPS ∅ "" = Ok d
  ∧ map name (nodes (visibleData d)) = [ "A"; "B" ].
Proof. eexists. split; vm_compute; reflexivity. Qed.

Lemma explore_rule_when_returned_witness :
  (unique_ids DEFAULT_GRAPH_DATA ∧ renders DEFAULT_GRAPH_DATA ALL_GROUPS "")
  ∧ ∃ d, @derive ascii_engine DEFAULT_GRAPH_DATA ALL_GROUPS
           {[ "Neural_Nets" ]} "" = Ok d
    ∧ (∀ n, n ∈ nodes (visibleData d) ↔
            n ∈ nodes DEFAULT_GRAPH_DATA ∧ group_name (group n) ∈ ALL_GROUPS ∧
            (group n = center ∨ group n = planet ∨
             (group n = satellite ∧
              ∃ nid, linked DEFAULT_GRAPH_DATA (id n) nid ∧
                     nid ∈ ({[ "Neural_Nets" ]} : gset string)))).
Proof.
  pose proof (default_renders ALL_GROUPS "") as Hr.
  split; [exact (conj default_unique_ids Hr)|].
  destruct (@explore_rule_when_returned ascii_engine DEFAULT_GRAPH_DATA ALL_GROUPS
              {[ "Neural_Nets" ]} default_unique_ids Hr) as (d & Hd & Hrule & _).
  exact (ex_intro _ d (conj Hd Hrule)).
Defined.

(** X17.  In search mode, where no link endpoint names a member of
    [Object.prototype], the derivation returns and the visible nodes are
    exactly the nodes whose group is active; and in every case two runs that
    differ only in the Expansion Set have the same outcome. *)
Theorem search_nodes_when_returned `{Engine}
    (g : GraphData) (ag : gset string) (q : string) :
  q ≠ "" →
  (Forall link_plain (links g) →
   ∀ ex, ∃ d, derive g ag ex q = Ok d
     ∧ nodes (visibleData d) = filter (λ n, group_name (group n) ∈ ag) (nodes g))
  ∧ (∀ E1 E2, derive g ag E1 q = derive g ag E2 q).
Proof.
  intros Hq. split.
  - intros Hl ex. eexists. split; [by apply derive_search|done].
  - intros E1 E2. destruct (decide (Forall link_plain (links g))) as [Hl|Hl].
    + by rewrite !derive_search.
    + rewrite !derive_throws; [done| |]; by intros [? _].
Qed.

Lemma search_nodes_when_returned_witness :
  "net" ≠ "" ∧
  (Forall link_plain (links DEFAULT_GRAPH_DATA) →
   ∀ ex, ∃ d, @derive ascii_engine DEFAULT_GRAPH_DATA ALL_GROUPS ex "net" = Ok d
     ∧ nodes (visibleData d) =
         filter (λ n, group_name (group n) ∈ ALL_GROUPS) (nodes DEFAULT_GRAPH_DATA))
  ∧ (∀ E1 E2, @derive ascii_engine DEFAULT_GRAPH_DATA ALL_GROUPS E1 "net"
              = @derive ascii_engine DEFAULT_GRAPH_DATA ALL_GROUPS E2 "net").
Proof.
  assert ("net" ≠ "") as Hq by discriminate.
  split; [exact Hq|].
  exact (@search_nodes_when_returned ascii_engine DEFAULT_GRAPH_DATA
           ALL_GROUPS "net" Hq).
Defined.

(** X22.  In both modes, whenever the derivation returns, the visible
    links are exactly the links of the graph, in their order and with their
    repetitions, whose two endpoints, resolved to plain ids, are ids of
    visible nodes; a link with an endpoint that names no node of the graph
    is left out. *)
Theorem visible_links_when_returned `{Engine}
    (g : GraphData) (ag ex : gset string) (q : string) :
  renders g ag q →
  ∃ d, derive g ag ex q = Ok d
  ∧ links (visibleData d) =
      filter (λ l, endpoint_id (source l) ∈ map id (nodes (visibleData d)) ∧
                   endpoint_id (target l) ∈ map id (nodes (visibleData d)))
        (links g)
  ∧ ∀ l, l ∈ links (visibleData d) →
      l ∈ links g ∧
      endpoint_id (source l) ∈ map id (nodes g) ∧
      endpoint_id (target l) ∈ map id (nodes g).
Proof.
  intros Hr. destruct (proj2 (derive_returns_iff g ag ex q) Hr) as [d Hd].
  exists d. split; [done|].
  pose proof (visible_links_filter g ag ex q d Hd) as Hl.
  split; [exact Hl|].
  intros l Hin. rewrite Hl in Hin.
  apply list_elem_of_filter in Hin as [[Hs Ht] Hg]. split; [done|].
  assert (∀ i, i ∈ map id (nodes (visibleData d)) → i ∈ map id (nodes g)) as Hsub.
  { intros i Hi. apply list_elem_of_fmap in Hi as (n & -> & Hn).
    apply list_elem_of_fmap. exists n. split; [done|].
    by apply (visible_nodes_sublist g ag ex q d). }
  auto.
Qed.

Lemma visible_links_when_returned_witness :
  renders DEFAULT_GRAPH_DATA ALL_GROUPS "net"
  ∧ ∃ d, @derive ascii_engine DEFAULT_GRAPH_DATA ALL_GROUPS ∅ "net" = Ok d
    ∧ links (visibleData d) =
        filter (λ l, endpoint_id (source l) ∈ map id (nodes (visibleData d)) ∧
                     endpoint_id (target l) ∈ map id (nodes (visibleData d)))
          (links DEFAULT_GRAPH_DATA)
    ∧ ∀ l, l ∈ links (visibleData d) →
        l ∈ links DEFAULT_GRAPH_DATA ∧
        endpoint_id (source l) ∈ map id (nodes DEFAULT_GRAPH_DATA) ∧
        endpoint_id (target l) ∈ map id (nodes DEFAULT_GRAPH_DATA).
Proof.
  pose proof (default_renders ALL_GROUPS "net") as Hr.
  split; [exact Hr|].
  exact (@visible_links_when_returned ascii_engine DEFAULT_GRAPH_DATA ALL_GROUPS
           ∅ "net" Hr).
Defined.

(** X23.  Where explore mode returns, a satellite of an active category
    with a neighbour id in the Expansion Set is in the view; the gate reads
    only the Expansion Set, so this holds even when the neighbour is a node
    whose own group is filtered out.  That neighbour is then hidden and no
    visible link touches it (ids unique). *)
Theorem satellite_gate_when_returned `{Engine}
    (g : GraphData) (ag ex : gset string) (s : GraphNode) (nid : string) :
  renders g ag "" →
  s ∈ nodes g → group s = satellite → "satellite" ∈ ag →
  linked g (id s) nid → nid ∈ ex →
  ∃ d, derive g ag ex "" = Ok d
  ∧ s ∈ nodes (visibleData d)
  ∧ ∀ nb, unique_ids g → nb ∈ nodes g → id nb = nid →
      group_name (group nb) ∉ ag →
      (nb ∉ nodes (visibleData d))
      ∧ ∀ l, l ∈ links (visibleData d) →
          endpoint_id (source l) ≠ nid ∧ endpoint_id (target l) ≠ nid.
Proof.
  intros Hr Hs Hg Hag Hl Hex.
  destruct (proj2 (derive_returns_iff g ag ex "") Hr) as [d Hd].
  exists d. split; [done|]. split.
  - apply (explore_visible g ag ex d s Hd). split; [done|]. exists s.
    split; [done|]. split; [done|]. split; [by rewrite Hg|].
    right; right. split; [done|]. by exists nid.
  - intros nb Hu Hnb Hid Hhid.
    assert (nid ∉ map id (nodes (visibleData d))) as Hnot.
    { intros Hin. apply list_elem_of_fmap in Hin as (m & Hm & Hv).
      apply (explore_visible_unique g ag ex d m Hu Hd) in Hv as (Hmg & Hmag & _).
      assert (m = nb) as -> by (apply (unique_ids_inj g); congruence).
      done. }
    split.
    + intros Hv. apply Hnot. apply list_elem_of_fmap. by exists nb.
    + intros l Hin. rewrite (visible_links_filter g ag ex "" d Hd) in Hin.
      apply list_elem_of_filter in Hin as [[H1 H2] _].
      split; intros Heq; rewrite Heq in *; done.
Qed.

Lemma default_linked_Transformers :
  linked DEFAULT_GRAPH_DATA (id Transformers) "Neural_Nets".
Proof.
  exists (link_lit "Neural_Nets" "Transformers"). split.
  - apply list_elem_of_In. vm_compute. tauto.
  - right. split; reflexivity.
Defined.

Lemma satellite_gate_when_returned_witness :
  (renders DEFAULT_GRAPH_DATA {[ "center"; "satellite" ]} "" ∧
   Transformers ∈ nodes DEFAULT_GRAPH_DATA ∧ group Transformers = satellite ∧
   "satellite" ∈ ({[ "center"; "satellite" ]} : gset string) ∧
   linked DEFAULT_GRAPH_DATA (id Transformers) "Neural_Nets" ∧
   "Neural_Nets" ∈ ({[ "Neural_Nets" ]} : gset string))
  ∧ ∃ d, @derive ascii_engine DEFAULT_GRAPH_DATA {[ "center"; "satellite" ]}
           {[ "Neural_Nets" ]} "" = Ok d
    ∧ Transformers ∈ nodes (visibleData d).
Proof.
  pose proof (default_renders {[ "center"; "satellite" ]} "") as Hr.
  assert (Transformers ∈ nodes DEFAULT_GRAPH_DATA) as H1
    by (apply list_elem_of_In; vm_compute; tauto).
  assert ("satellite" ∈ ({[ "center"; "satellite" ]} : gset string)) as H2
    by by_compute.
  assert ("Neural_Nets" ∈ ({[ "Neural_Nets" ]} : gset string)) as H3
    by by_compute.
  split;
    [exact (conj Hr (conj H1 (conj eq_refl (conj H2
              (conj default_linked_Transformers H3)))))|].
  destruct (@satellite_gate_when_returned ascii_engine DEFAULT_GRAPH_DATA
              {[ "center"; "satellite" ]} {[ "Neural_Nets" ]}
              Transformers "Neural_Nets"
              Hr H1 eq_refl H2 default_linked_Transformers H3)
    as (d & Hd & Hv & _).
  exact (ex_intro _ d (conj Hd Hv)).
Defined.

Lemma tier_rule_mono g (ex ex' : gset string) n :
  ex ⊆ ex' → tier_rule g ex n → tier_rule g ex' n.
Proof.
  intros Hsub [Hc|[Hp|(Hs & nid & Hl & Hin)]]; [by left|by right; left|].
  right; right. split; [done|]. exists nid. split; [done|]. by apply Hsub.
Qed.

(** X3.  Explore mode is monotone in the Expansion Set: where it returns
    (which does not depend on the Expansion Set), every node and every link
    of the view under an expansion set is in the view under any larger
    one. *)
Theorem explore_monotone_in_expansion `{Engine}
    (g : GraphData) (ag ex ex' : gset string) :
  ex ⊆ ex' → renders g ag "" →
  ∃ d d', derive g ag ex "" = Ok d ∧ derive g ag ex' "" = Ok d'
  ∧ (∀ n, n ∈ nodes (visibleData d) → n ∈ nodes (visibleData d'))
  ∧ (∀ l, l ∈ links (visibleData d) → l ∈ links (visibleData d')).
Proof.
  intros Hsub Hr.
  destruct (derive_explore g ag ex Hr) as (shown & Hd & Hshown).
  destruct (derive_explore g ag ex' Hr) as (shown' & Hd' & Hshown').
  assert (∀ i, i ∈ shown → i ∈ shown') as Hmono.
  { intros i. rewrite Hshown, Hshown'.
    intros (n & Hn & Hid & Hag & Ht). exists n. split; [done|]. split; [done|].
    split; [done|]. by apply (tier_rule_mono g ex ex'). }
  eexists _, _. split; [exact Hd|]. split; [exact Hd'|]. simpl. split.
  - intros n. rewrite !list_elem_of_filter. intros [Hi Hn]. split; [|done]. auto.
  - intros l. unfold links_within. rewrite !list_elem_of_filter.
    intros [[H1 H2] Hl]. split; [|done]. split; auto.
Qed.

Lemma explore_monotone_in_expansion_witness :
  (({[ CENTER_ID ]} : gset string) ⊆ {[ CENTER_ID; "Neural_Nets" ]} ∧
   renders DEFAULT_GRAPH_DATA ALL_GROUPS "")
  ∧ ∃ d d',
      @derive ascii_engine DEFAULT_GRAPH_DATA ALL_GROUPS {[ CENTER_ID ]} "" = Ok d
    ∧ @derive ascii_engine DEFAULT_GRAPH_DATA ALL_GROUPS
        {[ CENTER_ID; "Neural_Nets" ]} "" = Ok d'
    ∧ (∀ n, n ∈ nodes (visibleData d) → n ∈ nodes (visibleData d'))
    ∧ (∀ l, l ∈ links (visibleData d) → l ∈ links (visibleData d')).
Proof.
  assert (({[ CENTER_ID ]} : gset string) ⊆ {[ CENTER_ID; "Neural_Nets" ]}) as Hs
    by by_compute.
  pose proof (default_renders ALL_GROUPS "") as Hr.
  split; [exact (conj Hs Hr)|].
  exact (@explore_monotone_in_expansion ascii_engine DEFAULT_GRAPH_DATA ALL_GROUPS
           {[ CENTER_ID ]} {[ CENTER_ID; "Neural_Nets" ]} Hs Hr).
Defined.

(** X4.  Searching never hides what exploring shows: on a graph on which
    explore mode returns, search mode returns too, every id of a node of the
    explore view is the id of a node of the search view, and every link of
    the explore view is in the search view. *)
Theorem explore_view_within_search_view `{Engine}
    (g : GraphData) (ag ex ex' : gset string) (q : string) :
  q ≠ "" → renders g ag "" →
  ∃ d ds, derive g ag ex "" = Ok d ∧ derive g ag ex' q = Ok ds
  ∧ (∀ i, i ∈ map id (nodes (visibleData d)) →
          i ∈ map id (nodes (visibleData ds)))
  ∧ (∀ l, l ∈ links (visibleData d) → l ∈ links (visibleData ds)).
Proof.
  intros Hq Hr. destruct (derive_explore g ag ex Hr) as (shown & Hd & Hshown).
  destruct Hr as [Hlinks _].
  assert (∀ i, i ∈ shown →
            i ∈ id_set (filter (λ n, group_name (group n) ∈ ag) (nodes g)))
    as Hact.
  { intros i. rewrite Hshown. intros (n & Hn & <- & Hag & _).
    unfold id_set. rewrite elem_of_list_to_set, list_elem_of_fmap.
    exists n. split; [done|]. by apply list_elem_of_filter. }
  eexists _, _. split; [exact Hd|]. split; [by apply derive_search|]. simpl. split.
  - intros i Hi. apply list_elem_of_fmap in Hi as (n & -> & Hn).
    apply list_elem_of_filter in Hn as [Hn _]. apply Hact in Hn.
    unfold id_set in Hn. by rewrite elem_of_list_to_set in Hn.
  - intros l. unfold links_within. rewrite !list_elem_of_filter.
    intros [[H1 H2] Hl]. split; [|done]. split; auto.
Qed.

Lemma explore_view_within_search_view_witness :
  ("net" ≠ "" ∧ renders DEFAULT_GRAPH_DATA ALL_GROUPS "")
  ∧ ∃ d ds,
      @derive ascii_engine DEFAULT_GRAPH_DATA ALL_GROUPS {[ "Ethics" ]} "" = Ok d
    ∧ @derive ascii_engine DEFAULT_GRAPH_DATA ALL_GROUPS ∅ "net" = Ok ds
    ∧ (∀ i, i ∈ map id (nodes (visibleData d)) →
            i ∈ map id (nodes (visibleData ds)))
    ∧ (∀ l, l ∈ links (visibleData d) → l ∈ links (visibleData ds)).
Proof.
  assert ("net" ≠ "") as Hq by discriminate.
  pose proof (default_renders ALL_GROUPS "") as Hr.
  split; [exact (conj Hq Hr)|].
  exact (@explore_view_within_search_view ascii_engine DEFAULT_GRAPH_DATA
           ALL_GROUPS {[ "Ethics" ]} ∅ "net" Hq Hr).
Defined.

(** X6.  When no node of the graph has its group among the active
    categories (all boxes unchecked, for instance) and no link endpoint
    names a member of [Object.prototype], the derivation returns the empty
    view in both modes: no node and no link. *)
Theorem no_active_category_empty_view `{Engine}
    (g : GraphData) (ag ex : gset string) (q : string) :
  (∀ n, n ∈ nodes g → group_name (group n) ∉ ag) →
  Forall link_plain (links g) →
  ∃ d, derive g ag ex q = Ok d
  ∧ nodes (visibleData d) = [] ∧ links (visibleData d) = [].
Proof.
  intros Hno Hlinks.
  assert (renders g ag q) as Hr.
  { split; [done|]. intros _. apply Forall_forall. intros n Hn _ Hag.
    by destruct (Hno n Hn). }
  destruct (proj2 (derive_returns_iff g ag ex q) Hr) as [d Hd].
  exists d. split; [done|].
  assert (nodes (visibleData d) = []) as Hn.
  { destruct (decide (q = "")) as [->|Hq].
    - apply (explore_empty_iff g ag ex d Hd). intros n Hin [Hag _].
      by apply (Hno n).
    - rewrite (search_view g ag ex q d Hq Hd). simpl. by apply filter_none. }
  split; [exact Hn|]. by apply (no_nodes_no_links g ag ex q).
Qed.

Lemma no_active_category_empty_view_witness :
  ((∀ n, n ∈ nodes DEFAULT_GRAPH_DATA →
         group_name (group n) ∉ (∅ : gset string)) ∧
   Forall link_plain (links DEFAULT_GRAPH_DATA))
  ∧ ∃ d, @derive ascii_engine DEFAULT_GRAPH_DATA ∅ {[ CENTER_ID ]} "net" = Ok d
    ∧ nodes (visibleData d) = [] ∧ links (visibleData d) = [].
Proof.
  assert (∀ n, n ∈ nodes DEFAULT_GRAPH_DATA →
               group_name (group n) ∉ (∅ : gset string)) as H1
    by (intros n _; apply not_elem_of_empty).
  assert (Forall link_plain (links DEFAULT_GRAPH_DATA)) as H2 by by_compute.
  split; [exact (conj H1 H2)|].
  exact (@no_active_category_empty_view ascii_engine DEFAULT_GRAPH_DATA ∅
           {[ CENTER_ID ]} "net" H1 H2).
Defined.

(** ** Handlers *)

Lemma toggle_toggle i (s : gset string) : toggle i (toggle i s) = s.
Proof.
  apply set_eq. intros j. rewrite !elem_of_toggle.
  destruct (decide (j = i)) as [->|Hne]; [|tauto].
  destruct (decide (i ∈ s)); tauto.
Qed.

Lemma toggle_comm i j (s : gset string) :
  toggle i (toggle j s) = toggle j (toggle i s).
Proof.
  apply set_eq. intros k. rewrite !elem_of_toggle.
  destruct (decide (k = i)) as [Hi|Hi], (decide (k = j)) as [Hj|Hj],
    (decide (i ∈ s)), (decide (j ∈ s)); subst; intuition congruence.
Qed.

(** X7.  Clicking the same node twice restores the state: the data, the
    query, the categories and the Expansion Set are what they were, and the
    node is selected; this holds in search mode (where the Expansion Set is
    never touched) as well as in explore mode. *)
Theorem double_click_restores (node : GraphNode) (st : AppState) :
  handleNodeClick node (handleNodeClick node st) =
  {| masterData := masterData st;
     selectedNode := Some node;
     searchQuery := searchQuery st;
     activeGroups := activeGroups st;
     expandedNodes := expandedNodes st |}.
Proof.
  unfold handleNodeClick. destruct (searchQuery st) eqn:E; simpl.
  - by rewrite toggle_toggle.
  - reflexivity.
Qed.

(** X8.  Clicks on two nodes act independently on the Expansion Set: the
    set reached does not depend on the order of the two clicks. *)
Theorem clicks_commute_on_expansion (a b : GraphNode) (st : AppState) :
  expandedNodes (handleNodeClick a (handleNodeClick b st)) =
  expandedNodes (handleNodeClick b (handleNodeClick a st)).
Proof.
  rewrite !handleNodeClick_expanded.
  destruct (handleNodeClick_frame a st) as (_ & Ha & _).
  destruct (handleNodeClick_frame b st) as (_ & Hb & _).
  rewrite Ha, Hb. case_decide; [apply toggle_comm|done].
Qed.

Lemma visible_group_active `{Engine} g ag ex q d n :
  unique_ids g → derive g ag ex q = Ok d →
  n ∈ nodes (visibleData d) → group_name (group n) ∈ ag.
Proof.
  intros Hu Hd. destruct (decide (q = "")) as [->|Hq].
  - rewrite (explore_visible_unique g ag ex d n Hu Hd). by intros (_ & ? & _).
  - rewrite (search_view g ag ex q d Hq Hd). simpl. rewrite list_elem_of_filter.
    by intros [? _].
Qed.

Lemma renders_fewer_groups g (ag ag' : gset string) q :
  ag' ⊆ ag → renders g ag q → renders g ag' q.
Proof.
  intros Hsub [Hl Hs]. split; [done|]. intros Hq. specialize (Hs Hq).
  eapply Forall_impl; [exact Hs|]. intros n Hn Hg Hag. apply Hn; [done|].
  by apply Hsub.
Qed.

(** X9.  Unchecking a category hides it (node ids unique): if the view is
    derived before [toggleGroup] switches an active category off, it is
    derived after it as well, and no node of that category is in it, in
    either mode; the data, the query, the selection and the Expansion Set
    are not changed by the toggle. *)
Theorem toggle_group_off_hides_category `{Engine} (grp : Group) (st : AppState) :
  unique_ids (masterData st) →
  group_name grp ∈ activeGroups st →
  (∃ d0, render st = Ok d0) →
  (∃ d, render (toggleGroup (group_name grp) st) = Ok d
        ∧ ∀ n, n ∈ nodes (visibleData d) → group n ≠ grp)
  ∧ masterData (toggleGroup (group_name grp) st) = masterData st
  ∧ searchQuery (toggleGroup (group_name grp) st) = searchQuery st
  ∧ selectedNode (toggleGroup (group_name grp) st) = selectedNode st
  ∧ expandedNodes (toggleGroup (group_name grp) st) = expandedNodes st.
Proof.
  intros Hu Hin Hret. split; [|repeat split; reflexivity].
  unfold render in *. unfold toggleGroup.
  cbn [masterData activeGroups expandedNodes searchQuery].
  apply derive_returns_iff in Hret.
  assert (renders (masterData st) (toggle (group_name grp) (activeGroups st))
            (searchQuery st)) as Hr.
  { eapply renders_fewer_groups; [|exact Hret].
    intros i Hi. apply elem_of_toggle in Hi. tauto. }
  destruct (proj2 (derive_returns_iff _ _ (expandedNodes st) _) Hr) as [d Hd].
  exists d. split; [done|]. intros n Hn Hg.
  apply (visible_group_active _ _ _ _ _ _ Hu Hd) in Hn.
  apply elem_of_toggle in Hn. rewrite Hg in Hn. tauto.
Qed.

Lemma initial_state_renders :
  ∃ d0, @render ascii_engine initial_state = Ok d0.
Proof. eexists. vm_compute. reflexivity. Defined.

Lemma toggle_group_off_hides_category_witness :
  (unique_ids (masterData initial_state) ∧
   group_name satellite ∈ activeGroups initial_state ∧
   ∃ d0, @render ascii_engine initial_state = Ok d0)
  ∧ ∃ d, @render ascii_engine (toggleGroup (group_name satellite) initial_state)
         = Ok d
    ∧ ∀ n, n ∈ nodes (visibleData d) → group n ≠ satellite.
Proof.
  assert (group_name satellite ∈ activeGroups initial_state) as Hin by by_compute.
  split; [exact (conj default_unique_ids (conj Hin initial_state_renders))|].
  exact (proj1 (@toggle_group_off_hides_category ascii_engine satellite
                  initial_state default_unique_ids Hin initial_state_renders)).
Defined.

(** No satellite of the built-in graph is linked to the center. *)
Lemma default_satellites_off_center n :
  n ∈ nodes DEFAULT_GRAPH_DATA → group n = satellite →
  ¬ linked DEFAULT_GRAPH_DATA (id n) CENTER_ID.
Proof.
  intros Hn Hg (l & Hl & Hends).
  apply list_elem_of_In in Hn. apply list_elem_of_In in Hl.
  simpl in Hn, Hl.
  repeat (destruct Hn as [<-|Hn]; [try discriminate Hg|]); [..|done];
    repeat (destruct Hl as [<-|Hl];
            [destruct Hends as [[H1 H2]|[H1 H2]]; discriminate|]); done.
Qed.

Lemma filter_iff_in {A} (P Q : A → Prop) `{∀ x, Decision (P x)}
    `{∀ x, Decision (Q x)} (l : list A) :
  (∀ x, x ∈ l → (P x ↔ Q x)) → filter P l = filter Q l.
Proof.
  induction l as [|x l IH]; intros Hpq; [done|].
  rewrite !filter_cons.
  rewrite IH by (intros y Hy; apply Hpq; by right).
  destruct (decide (P x)) as [Hp|Hp], (decide (Q x)) as [Hq|Hq]; try done.
  - destruct Hq. apply Hpq; [left|done].
  - destruct Hp. apply Hpq; [left|done].
Qed.

(** X10.  A confirmed reset puts the state back to the built-in graph,
    no selection, an empty query and only the center expanded, keeping
    nothing of the previous state but its category filter.  The view then
    derived is exactly the built-in nodes of an active category that are not
    satellites, with the links among them and no highlight.  A declined
    reset changes nothing. *)
Theorem reset_view `{Engine} (st : AppState) :
  handleReset true st =
    {| masterData := DEFAULT_GRAPH_DATA; selectedNode := None;
       searchQuery := ""; activeGroups := activeGroups st;
       expandedNodes := {[ CENTER_ID ]} |}
  ∧ (∃ d, render (handleReset true st) = Ok d
     ∧ nodes (visibleData d) =
         filter (λ n, group_name (group n) ∈ activeGroups st ∧
                      group n ≠ satellite) (nodes DEFAULT_GRAPH_DATA)
     ∧ links (visibleData d) =
         filter (λ l, endpoint_id (source l) ∈ map id (nodes (visibleData d)) ∧
                      endpoint_id (target l) ∈ map id (nodes (visibleData d)))
           (links DEFAULT_GRAPH_DATA)
     ∧ highlightedNodeIds d = ∅)
  ∧ handleReset false st = st.
Proof.
  split; [reflexivity|]. split; [|reflexivity].
  unfold render, handleReset.
  cbn [masterData activeGroups expandedNodes searchQuery].
  pose proof (default_renders (activeGroups st) "") as Hr.
  destruct (derive_explore DEFAULT_GRAPH_DATA (activeGroups st) {[ CENTER_ID ]} Hr)
    as (shown & Hd & Hshown).
  eexists. split; [exact Hd|]. split; [|split; [|done]].
  - cbn [visibleData nodes]. apply filter_iff_in. intros n Hn.
    rewrite Hshown. split.
    + intros (m & Hm & Hid & Hag & Ht).
      assert (m = n) as ->.
      { apply (unique_ids_inj _ _ _ default_unique_ids); assumption. }
      split; [assumption|]. intros Hg.
      destruct Ht as [Hc|[Hp|(_ & nid & Hl & Hex)]].
      * rewrite Hg in Hc. discriminate Hc.
      * rewrite Hg in Hp. discriminate Hp.
      * apply elem_of_singleton in Hex. subst nid.
        exact (default_satellites_off_center n Hn Hg Hl).
    + intros [Hag Hg]. exists n. split; [assumption|]. split; [reflexivity|].
      split; [assumption|]. unfold tier_rule.
      destruct (group n); [left; reflexivity|right; left; reflexivity|].
      contradiction.
  - exact (visible_links_filter DEFAULT_GRAPH_DATA (activeGroups st)
             {[ CENTER_ID ]} "" _ Hd).
Qed.

(** ** CSV ingestion: shape of the output *)

Section IngestShape.

Context {Eng : Engine}.

Variable jitter : nat → Q.

Import Csv.

(** The link written for a row node. *)
Definition link_to (n : GraphNode) : GraphLink :=
  mkLink (EId CENTER_ID) (EId (id n)) None.

(** What every node built from a row looks like. *)
Definition row_like (n : GraphNode) : Prop :=
  group n = planet ∧ name n = id n ∧ id n ≠ "" ∧
  ∃ size row, clean_id row = Some (id n) ∧ n = row_node size (id n) row.

(** The invariant of the row loop. *)
Definition well_formed (a : Acc) : Prop :=
  ∃ tl, acc_nodes a = center_node :: tl ∧
        acc_links a = map link_to tl ∧
        Forall row_like tl ∧
        NoDup (map id (acc_nodes a)) ∧
        ∀ i, i ∈ uniqueIds a ↔ i ∈ map id (acc_nodes a).

Lemma init_well_formed : well_formed init_acc.
Proof.
  exists []. simpl. repeat split; try done.
  - apply NoDup_singleton.
  - intros H. apply elem_of_singleton in H as ->. left.
  - intros H. apply list_elem_of_singleton in H as ->. by apply elem_of_singleton.
Qed.

Lemma row_step_well_formed a row :
  well_formed a → well_formed (row_step jitter a row).
Proof.
  intros Hwf. destruct (row_step_cases jitter a row) as [->|(cid & Hcid & Hfresh & ->)];
    [done|].
  destruct Hwf as (tl & Hn & Hl & Hall & Hnd & Hids).
  exists (tl ++ [row_node (jitter (draws a)) cid row]). simpl.
  split; [by rewrite Hn|]. split; [by rewrite Hl, map_app|].
  split; [|split].
  - apply Forall_app. split; [done|]. apply Forall_singleton.
    split; [done|]. split; [done|]. split.
    + by apply clean_id_Some in Hcid as [? _].
    + by exists (jitter (draws a)), row.
  - rewrite map_app. simpl. apply NoDup_app. split; [done|]. split.
    + intros i Hi Hin. apply list_elem_of_singleton in Hin as ->.
      by apply Hfresh, Hids.
    + apply NoDup_singleton.
  - intros i. rewrite map_app, elem_of_union, elem_of_app, Hids. simpl.
    by rewrite elem_of_singleton, list_elem_of_singleton.
Qed.

Lemma fold_well_formed rows a :
  well_formed a → well_formed (fold_left (row_step jitter) rows a).
Proof.
  revert a. induction rows as [|row rows IH]; intros a Hwf; simpl; [done|].
  by apply IH, row_step_well_formed.
Qed.

Lemma complete_well_formed rows :
  well_formed (fold_left (row_step jitter) rows init_acc).
Proof. apply fold_well_formed, init_well_formed. Qed.

Lemma row_step_ids a row i :
  i ∈ uniqueIds (row_step jitter a row) ↔
  i ∈ uniqueIds a ∨ clean_id row = Some i.
Proof.
  unfold row_step. destruct (clean_id row) as [cid|]; [|by intuition].
  destruct (bool_decide (cid ∈ uniqueIds a)) eqn:E.
  - apply bool_decide_eq_true in E. split; [by left|].
    intros [?|[= <-]]; done.
  - simpl. rewrite elem_of_union, elem_of_singleton.
    split; (intros [?|H]; [by left|right]); congruence.
Qed.

Lemma fold_ids rows a i :
  i ∈ uniqueIds (fold_left (row_step jitter) rows a) ↔
  i ∈ uniqueIds a ∨ ∃ r, r ∈ rows ∧ clean_id r = Some i.
Proof.
  revert a. induction rows as [|row rows IH]; intros a; simpl.
  - split; [by left|]. intros [?|(r & Hr & _)]; [done|]. by apply elem_of_nil in Hr.
  - rewrite IH, row_step_ids. split.
    + intros [[?|?]|(r & Hr & ?)]; [by left| |].
      * right. exists row. split; [left|done].
      * right. exists r. split; [by right|done].
    + intros [?|(r & Hr & ?)]; [by left; left|].
      apply elem_of_cons in Hr as [->|Hr]; [by left; right|].
      right. by exists r.
Qed.

(** Rows whose id is already known, or that have none, change nothing. *)
Lemma fold_known rows a :
  (∀ r, r ∈ rows → ∀ c, clean_id r = Some c → c ∈ uniqueIds a) →
  fold_left (row_step jitter) rows a = a.
Proof.
  induction rows as [|row rows IH]; intros Hknown; simpl; [done|].
  assert (row_step jitter a row = a) as ->.
  { unfold row_step. destruct (clean_id row) as [c|] eqn:E; [|done].
    rewrite bool_decide_eq_true_2; [done|]. apply (Hknown row); [left|done]. }
  apply IH. intros r Hr. apply Hknown. by right.
Qed.

End IngestShape.

(** X11.  Ingestion establishes the data model's invariants: in the graph
    built from any rows the node ids are pairwise distinct, the first node
    is the fixed center, and it is the only node of group [center]. *)
Theorem ingestion_unique_ids_one_center `{Engine} (jitter : nat → Q) (rows : list Csv.Row) :
  let G := Csv.complete jitter rows in
  unique_ids G
  ∧ (∃ tl, nodes G = Csv.center_node :: tl ∧ Forall (λ n, group n = planet) tl)
  ∧ ∀ n, n ∈ nodes G → (group n = center ↔ id n = CENTER_ID).
Proof.
  intros G. destruct (complete_well_formed jitter rows)
    as (tl & Hn & Hl & Hall & Hnd & Hids).
  split; [exact Hnd|]. split.
  - exists tl. split; [exact Hn|].
    eapply Forall_impl; [exact Hall|]. by intros n (? & _).
  - intros n Hin. subst G. unfold Csv.complete in Hin. simpl in Hin.
    rewrite Hn in Hin, Hnd. apply elem_of_cons in Hin as [->|Hin]; [done|].
    rewrite Forall_forall in Hall. destruct (Hall n Hin) as (Hg & _).
    split; [congruence|]. intros Hid. exfalso.
    simpl in Hnd. apply NoDup_cons in Hnd as [Hnotin _]. apply Hnotin.
    apply list_elem_of_fmap. exists n. by split.
Qed.

(** X12.  The output of ingestion is a two-level star: after the center
    come the row nodes, each a planet whose name is its id, a non-empty
    trimmed name of some row, and the links are, in the same order, one link
    from the center id to each of them and nothing else. *)
Theorem ingestion_star_shape `{Engine} (jitter : nat → Q) (rows : list Csv.Row) :
  let G := Csv.complete jitter rows in
  ∃ tl,
    nodes G = Csv.center_node :: tl
    ∧ links G = map (λ n, mkLink (EId CENTER_ID) (EId (id n)) None) tl
    ∧ ∀ n, n ∈ tl →
        group n = planet ∧ name n = id n ∧ id n ≠ "" ∧ id n ≠ CENTER_ID ∧
        ∃ row, row ∈ rows ∧ Csv.clean_id row = Some (id n).
Proof.
  intros G. destruct (complete_well_formed jitter rows)
    as (tl & Hn & Hl & Hall & Hnd & Hids).
  exists tl. split; [exact Hn|]. split; [exact Hl|].
  intros n Hin. rewrite Forall_forall in Hall.
  destruct (Hall n Hin) as (Hg & Hname & Hne & _).
  split; [done|]. split; [done|]. split; [done|].
  assert (id n ∈ Csv.uniqueIds (fold_left (Csv.row_step jitter) rows Csv.init_acc))
    as Hu.
  { apply Hids. rewrite Hn. right. apply list_elem_of_fmap. by exists n. }
  assert (id n ≠ CENTER_ID) as Hc.
  { intros Hid. rewrite Hn in Hnd. simpl in Hnd.
    apply NoDup_cons in Hnd as [Hnotin _]. apply Hnotin.
    apply list_elem_of_fmap. exists n. by split. }
  split; [done|].
  apply fold_ids in Hu as [Hu|Hu]; [|done].
  simpl in Hu. by apply elem_of_singleton in Hu.
Qed.

(** X13.  The ids of the output are the center id and the non-empty
    trimmed names of the rows: every row with a usable name is represented
    by a node with that id, and no other id appears. *)
Theorem ingestion_ids `{Engine} (jitter : nat → Q) (rows : list Csv.Row) (i : string) :
  i ∈ map id (nodes (Csv.complete jitter rows)) ↔
  i = CENTER_ID ∨ ∃ row, row ∈ rows ∧ Csv.clean_id row = Some i.
Proof.
  destruct (complete_well_formed jitter rows)
    as (tl & Hn & Hl & Hall & Hnd & Hids).
  unfold Csv.complete. simpl. rewrite <- Hids, fold_ids. simpl.
  by rewrite elem_of_singleton.
Qed.

(** X14.  Rows that bring nothing new are ignored wherever they stand
    after the rows they repeat: if every row of [more] has no usable name,
    or resolves to the center id or to the trimmed name of a row of [rows],
    then ingesting [rows ++ more] gives the same graph as ingesting [rows]
    (the same nodes, sizes included, and the same links). *)
Theorem ingestion_ignores_repeats `{Engine} (jitter : nat → Q) (rows more : list Csv.Row) :
  (∀ r, r ∈ more → ∀ c, Csv.clean_id r = Some c →
        c = CENTER_ID ∨ ∃ r0, r0 ∈ rows ∧ Csv.clean_id r0 = Some c) →
  Csv.complete jitter (rows ++ more) = Csv.complete jitter rows.
Proof.
  intros Hrep. unfold Csv.complete. rewrite fold_left_app.
  rewrite fold_known; [done|].
  intros r Hr c Hc. apply fold_ids. simpl. rewrite elem_of_singleton.
  by apply (Hrep r).
Qed.

Lemma ingestion_ignores_repeats_witness :
  let rows := [ [("Name", "Foo"); ("Description", "Bar")] ] in
  let more := [ [("Name", " Foo ")]; [("Name", "AGI_CORE")]; [("Name", "")] ] in
  (∀ r, r ∈ more → ∀ c, @Csv.clean_id ascii_engine r = Some c →
        c = CENTER_ID ∨ ∃ r0, r0 ∈ rows ∧ @Csv.clean_id ascii_engine r0 = Some c)
  ∧ @Csv.complete ascii_engine (λ _, 20%Q) (rows ++ more)
    = @Csv.complete ascii_engine (λ _, 20%Q) rows.
Proof.
  intros rows more.
  assert (∀ r, r ∈ more → ∀ c, @Csv.clean_id ascii_engine r = Some c →
            c = CENTER_ID ∨
            ∃ r0, r0 ∈ rows ∧ @Csv.clean_id ascii_engine r0 = Some c) as Hrep.
  { intros r Hr c Hc. subst more.
    apply elem_of_cons in Hr as [->|Hr].
    { right. exists [("Name", "Foo"); ("Description", "Bar")].
      split; [left|]. vm_compute in Hc. by rewrite <- Hc. }
    apply elem_of_cons in Hr as [->|Hr].
    { left. vm_compute in Hc. injection Hc as <-. reflexivity. }
    apply list_elem_of_singleton in Hr as ->. vm_compute in Hc. discriminate. }
  split; [exact Hrep|].
  exact (@ingestion_ignores_repeats ascii_engine (λ _, 20%Q) rows more Hrep).
Defined.

(** ** Import and view *)

Lemma filter_all {A} (P : A → Prop) `{∀ x, Decision (P x)} (l : list A) :
  (∀ x, x ∈ l → P x) → filter P l = l.
Proof.
  induction l as [|x l IH]; intros Hall; [done|].
  rewrite filter_cons, decide_True by (apply Hall; left).
  f_equal. apply IH. intros y Hy. apply Hall. by right.
Qed.

(** A graph without satellites, whose categories are active and whose
    links all join nodes of the graph, is shown whole in every view the
    derivation returns. *)
Lemma flat_graph_fully_visible `{Engine} g ag ex q d :
  derive g ag ex q = Ok d →
  (∀ n, n ∈ nodes g → group n ≠ satellite ∧ group_name (group n) ∈ ag) →
  (∀ l, l ∈ links g → endpoint_id (source l) ∈ map id (nodes g) ∧
                      endpoint_id (target l) ∈ map id (nodes g)) →
  visibleData d = g.
Proof.
  intros Hd Hn Hl.
  assert (nodes (visibleData d) = nodes g) as Hnodes.
  { destruct (decide (q = "")) as [->|Hq].
    - destruct (explore_view g ag ex d Hd) as (shown & -> & Hshown). simpl.
      apply filter_all. intros n Hin.
      apply Hshown. exists n. split; [done|]. split; [done|].
      destruct (Hn n Hin) as [Hg Hag]. split; [done|].
      unfold tier_rule. destruct (group n); [by left|by right; left|done].
    - rewrite (search_view g ag ex q d Hq Hd). simpl. apply filter_all.
      intros n Hin. by apply Hn. }
  assert (links (visibleData d) = links g) as Hlinks.
  { rewrite (visible_links_filter g ag ex q d Hd), Hnodes. by apply filter_all. }
  destruct (visibleData d) as [ns ls], g as [gn gl].
  simpl in *. congruence.
Qed.

(** The imported rows give no node an id that names a member of
    [Object.prototype]. *)
Definition plain_rows `{Engine} (data : list Csv.Row) : Prop :=
  ∀ r c, r ∈ data → Csv.clean_id r = Some c → inherited c = false.

Lemma imported_links `{Engine} (jitter : nat → Q) (data : list Csv.Row) l :
  l ∈ links (Csv.complete jitter data) ↔
  ∃ n, n ∈ nodes (Csv.complete jitter data) ∧ id n ≠ CENTER_ID ∧
       l = mkLink (EId CENTER_ID) (EId (id n)) None.
Proof.
  destruct (complete_well_formed jitter data)
    as (tl & Hn & Hl & Hall & Hnd & Hids).
  unfold Csv.complete. simpl. rewrite Hn, Hl, list_elem_of_fmap.
  assert (∀ n, n ∈ tl → id n ≠ CENTER_ID) as Htl.
  { intros n Hin Hid. rewrite Hn in Hnd. simpl in Hnd.
    apply NoDup_cons in Hnd as [Hnotin _]. apply Hnotin.
    apply list_elem_of_fmap. exists n. by split. }
  split.
  - intros (n & -> & Hin). exists n. split; [by right|]. split; [by apply Htl|done].
  - intros (n & Hin & Hid & ->). exists n. split; [done|].
    apply elem_of_cons in Hin as [->|Hin]; [done|done].
Qed.

(** X16.  After a successful import in which no row resolves to a name
    of a member of [Object.prototype], with the [center] and [planet]
    categories active, the view is derived and is the whole imported graph,
    whatever the query in the search box (an import does not clear it); the
    Expansion Set is reset to the center and the selection is cleared.  A
    failed import leaves the state as it was. *)
Theorem import_shows_whole_graph `{Engine}
    (jitter : nat → Q) (data : list Csv.Row) (st : AppState) :
  "center" ∈ activeGroups st → "planet" ∈ activeGroups st →
  plain_rows data →
  let st' := handleFileUpload (Csv.parseCsvToGraph jitter (Csv.Parsed data)) st in
  (∃ d, render st' = Ok d ∧ visibleData d = Csv.complete jitter data)
  ∧ expandedNodes st' = {[ CENTER_ID ]}
  ∧ selectedNode st' = None
  ∧ searchQuery st' = searchQuery st
  ∧ ∀ e, handleFileUpload (Csv.parseCsvToGraph jitter (Csv.Failed e)) st = st.
Proof.
  intros Hc Hp Hplain st'. split; [|by repeat split].
  subst st'. unfold render, handleFileUpload, Csv.parseCsvToGraph.
  cbn [masterData activeGroups expandedNodes searchQuery].
  destruct (complete_well_formed jitter data)
    as (tl & Hn & Hl & Hall & Hnd & Hids).
  rewrite Forall_forall in Hall.
  assert (∀ n, n ∈ nodes (Csv.complete jitter data) →
            group n ≠ satellite ∧ group_name (group n) ∈ activeGroups st) as Hflat.
  { intros n Hin. unfold Csv.complete in Hin. simpl in Hin. rewrite Hn in Hin.
    apply elem_of_cons in Hin as [->|Hin]; [by split|].
    destruct (Hall n Hin) as (Hg & _). rewrite Hg. by split. }
  assert (renders (Csv.complete jitter data) (activeGroups st) (searchQuery st))
    as Hr.
  { split.
    - apply Forall_forall. intros l Hin.
      apply imported_links in Hin as (n & Hin & Hid & ->). split; [reflexivity|].
      simpl.
      assert (id n ∈ map id (nodes (Csv.complete jitter data))) as Hmem
        by (apply list_elem_of_fmap; by exists n).
      apply ingestion_ids in Hmem as [?|(r & Hr & Hcid)]; [done|].
      by apply (Hplain r).
    - intros _. apply Forall_forall. intros n Hin Hg. by destruct (Hflat n Hin). }
  destruct (proj2 (derive_returns_iff _ _ (({[ CENTER_ID ]}) : gset string) _) Hr)
    as [d Hd].
  exists d. split; [exact Hd|].
  eapply flat_graph_fully_visible; [exact Hd|exact Hflat|].
  intros l Hin. apply imported_links in Hin as (n & Hin & Hid & ->). simpl.
  split.
  - unfold Csv.complete. simpl. rewrite Hn. left.
  - apply list_elem_of_fmap. by exists n.
Qed.

Lemma import_shows_whole_graph_witness :
  let data := [ [("Name", "Foo")]; [("Name", "Bar")] ] in
  ("center" ∈ activeGroups initial_state ∧ "planet" ∈ activeGroups initial_state ∧
   @plain_rows ascii_engine data)
  ∧ ∃ d, @render ascii_engine
           (handleFileUpload
              (@Csv.parseCsvToGraph ascii_engine (λ _, 20%Q) (Csv.Parsed data))
              initial_state) = Ok d
    ∧ visibleData d = @Csv.complete ascii_engine (λ _, 20%Q) data.
Proof.
  intros data.
  assert ("center" ∈ activeGroups initial_state) as H1 by by_compute.
  assert ("planet" ∈ activeGroups initial_state) as H2 by by_compute.
  assert (@plain_rows ascii_engine data) as H3.
  { intros r c Hr Hc. subst data.
    apply elem_of_cons in Hr as [->|Hr].
    { vm_compute in Hc. injection Hc as <-. reflexivity. }
    apply list_elem_of_singleton in Hr as ->.
    vm_compute in Hc. injection Hc as <-. reflexivity. }
  split; [exact (conj H1 (conj H2 H3))|].
  exact (proj1 (@import_shows_whole_graph ascii_engine (λ _, 20%Q) data
                  initial_state H1 H2 H3)).
Defined.

(** X21.  Importing a file in which some row resolves to a name of a
    member of [Object.prototype] (a row named [constructor], for instance)
    makes the derivation throw [TypeError] at the next render, in search
    mode as in explore mode, whatever the categories: the row becomes a
    node linked to the center, and the adjacency loop fails on that link. *)
Theorem import_of_prototype_name_throws `{Engine}
    (jitter : nat → Q) (data : list Csv.Row) (st : AppState)
    (r : Csv.Row) (c : string) :
  r ∈ data → Csv.clean_id r = Some c → inherited c = true →
  render (handleFileUpload (Csv.parseCsvToGraph jitter (Csv.Parsed data)) st)
  = Throw TypeError.
Proof.
  intros Hr Hc Hinh. unfold render, handleFileUpload, Csv.parseCsvToGraph.
  cbn [masterData activeGroups expandedNodes searchQuery].
  apply derive_throws. intros [Hlinks _].
  assert (c ∈ map id (nodes (Csv.complete jitter data))) as Hmem.
  { apply ingestion_ids. right. by exists r. }
  apply list_elem_of_fmap in Hmem as (n & -> & Hn).
  assert (id n ≠ CENTER_ID) as Hid by (intros Heq; by rewrite Heq in Hinh).
  rewrite Forall_forall in Hlinks.
  destruct (Hlinks (mkLink (EId CENTER_ID) (EId (id n)) None)) as [_ Ht].
  { apply imported_links. by exists n. }
  simpl in Ht. congruence.
Qed.

Lemma import_of_prototype_name_throws_witness :
  ([("Name", "constructor")] ∈ [ [("Name", "Foo")]; [("Name", "constructor")] ] ∧
   @Csv.clean_id ascii_engine [("Name", "constructor")] = Some "constructor" ∧
   inherited "constructor" = true)
  ∧ @render ascii_engine
      (handleFileUpload
         (@Csv.parseCsvToGraph ascii_engine (λ _, 20%Q)
            (Csv.Parsed [ [("Name", "Foo")]; [("Name", "constructor")] ]))
         initial_state) = Throw TypeError.
Proof.
  assert ([("Name", "constructor")]
            ∈ [ [("Name", "Foo")]; [("Name", "constructor")] ]) as H1
    by (right; left).
  split; [exact (conj H1 (conj eq_refl eq_refl))|].
  exact (@import_of_prototype_name_throws ascii_engine (λ _, 20%Q) _ initial_state
           _ _ H1 eq_refl eq_refl).
Defined.

(** ** Rendering decisions *)

Lemma searchActive_true st : Galaxy.searchActive st = true ↔ searchQuery st ≠ "".
Proof. apply isSearching_true. Qed.

(** X18.  While a search is active and the view is derived, a node of
    the graph (ids unique) is drawn dimmed exactly when it is not the center
    and neither its name nor its description, put in lower case, contains
    the lower-cased query; a dimmed node, and only a dimmed node, gets the
    gray colour, and its opacity is 0.3 instead of 0.9. *)
Theorem search_dims_non_matching `{Engine} (st : AppState) (n : GraphNode) :
  searchQuery st ≠ "" → unique_ids (masterData st) → n ∈ nodes (masterData st) →
  Forall link_plain (links (masterData st)) →
  ∃ d, render st = Ok d ∧
    let hl := highlightedNodeIds d in
    let dim := Galaxy.isDimmed (Galaxy.searchActive st) hl n in
    (dim = true ↔ group n ≠ center ∧ ¬ query_match (searchQuery st) n)
    ∧ (Galaxy.colorHex (Galaxy.searchActive st) hl n = Galaxy.GRAY ↔ dim = true)
    ∧ Galaxy.opacity (Galaxy.searchActive st) hl n = (if dim then 0.3 else 0.9)%Q.
Proof.
  intros Hq Hu Hn Hlinks.
  assert (renders (masterData st) (activeGroups st) (searchQuery st)) as Hr
    by (split; [done|by intros ?]).
  destruct (proj2 (derive_returns_iff _ _ (expandedNodes st) _) Hr) as [d Hd].
  exists d. split; [exact Hd|]. intros hl dim.
  assert (id n ∈ hl ↔ query_match (searchQuery st) n) as Hhl.
  { subst hl. rewrite (highlight_spec _ _ _ _ _ _ Hq Hd). split.
    - intros (m & Hm & Hid & Hmatch).
      by rewrite <- (unique_ids_inj _ m n Hu Hm Hn Hid).
    - intros Hmatch. by exists n. }
  split; [|split].
  - subst dim. unfold Galaxy.isDimmed, Galaxy.isHighlighted, Galaxy.isCenter.
    rewrite (proj2 (searchActive_true st) Hq). simpl.
    rewrite andb_true_iff, !negb_true_iff, !bool_decide_eq_false. tauto.
  - unfold Galaxy.colorHex. fold dim. destruct dim; [done|].
    split; [|done].
    unfold Galaxy.isCenter. destruct (group n); vm_compute; discriminate.
  - unfold Galaxy.opacity. by fold dim.
Qed.

Definition searching_state : AppState :=
  {| masterData := DEFAULT_GRAPH_DATA; selectedNode := None;
     searchQuery := "neural"; activeGroups := ALL_GROUPS;
     expandedNodes := {[ CENTER_ID ]} |}.

Lemma search_dims_non_matching_witness :
  (searchQuery searching_state ≠ "" ∧ unique_ids (masterData searching_state) ∧
   Transformers ∈ nodes (masterData searching_state) ∧
   Forall link_plain (links (masterData searching_state)))
  ∧ ∃ d, @render ascii_engine searching_state = Ok d ∧
      (Galaxy.isDimmed (Galaxy.searchActive searching_state)
         (highlightedNodeIds d) Transformers = true ↔
       group Transformers ≠ center ∧
       ¬ @query_match ascii_engine (searchQuery searching_state) Transformers).
Proof.
  assert (searchQuery searching_state ≠ "") as H1 by discriminate.
  assert (Transformers ∈ nodes (masterData searching_state)) as H2
    by (apply list_elem_of_In; vm_compute; tauto).
  assert (Forall link_plain (links (masterData searching_state))) as H3
    by by_compute.
  split; [exact (conj H1 (conj default_unique_ids (conj H2 H3)))|].
  destruct (@search_dims_non_matching ascii_engine searching_state Transformers
              H1 default_unique_ids H2 H3) as (d & Hd & Hdim & _).
  exact (ex_intro _ d (conj Hd Hdim)).
Defined.

(** X19.  While a search is active and the view is derived, a link is
    drawn in the bright colour exactly when each of its two endpoints,
    resolved to an id, is the id of a node of the graph that matches the
    query, and in the dim colour otherwise. *)
Theorem link_colour_follows_matches `{Engine} (st : AppState) (l : GraphLink) :
  searchQuery st ≠ "" → Forall link_plain (links (masterData st)) →
  ∃ d, render st = Ok d ∧
    let c := Galaxy.linkColor (Galaxy.searchActive st) (highlightedNodeIds d) l in
    (c = "rgba(255, 255, 255, 0.6)" ↔
     (∃ n, n ∈ nodes (masterData st) ∧ id n = endpoint_id (source l) ∧
           query_match (searchQuery st) n) ∧
     (∃ n, n ∈ nodes (masterData st) ∧ id n = endpoint_id (target l) ∧
           query_match (searchQuery st) n))
    ∧ (c ≠ "rgba(255, 255, 255, 0.6)" → c = "rgba(50, 50, 50, 0.1)").
Proof.
  intros Hq Hlinks.
  assert (renders (masterData st) (activeGroups st) (searchQuery st)) as Hr
    by (split; [done|by intros ?]).
  destruct (proj2 (derive_returns_iff _ _ (expandedNodes st) _) Hr) as [d Hd].
  exists d. split; [exact Hd|]. intros c. subst c. unfold Galaxy.linkColor.
  rewrite (proj2 (searchActive_true st) Hq).
  rewrite <- !(highlight_spec _ _ _ _ _ _ Hq Hd).
  destruct (bool_decide _ && bool_decide _) eqn:E.
  - apply andb_true_iff in E as [E1 E2].
    apply bool_decide_eq_true in E1, E2. by split.
  - apply andb_false_iff in E. split; [|done]. split; [discriminate|].
    intros [H1 H2]. destruct E as [E|E]; apply bool_decide_eq_false in E; done.
Qed.

Lemma link_colour_follows_matches_witness :
  (searchQuery searching_state ≠ "" ∧
   Forall link_plain (links (masterData searching_state)))
  ∧ ∃ d, @render ascii_engine searching_state = Ok d ∧
      let c := Galaxy.linkColor (Galaxy.searchActive searching_state)
                 (highlightedNodeIds d) (link_lit "Reasoning" "Symbolic") in
      (c = "rgba(255, 255, 255, 0.6)" ↔
       (∃ n, n ∈ nodes (masterData searching_state) ∧
             id n = endpoint_id (source (link_lit "Reasoning" "Symbolic")) ∧
             @query_match ascii_engine (searchQuery searching_state) n) ∧
       (∃ n, n ∈ nodes (masterData searching_state) ∧
             id n = endpoint_id (target (link_lit "Reasoning" "Symbolic")) ∧
             @query_match ascii_engine (searchQuery searching_state) n))
      ∧ (c ≠ "rgba(255, 255, 255, 0.6)" → c = "rgba(50, 50, 50, 0.1)").
Proof.
  assert (searchQuery searching_state ≠ "") as H1 by discriminate.
  assert (Forall link_plain (links (masterData searching_state))) as H2
    by by_compute.
  split; [exact (conj H1 H2)|].
  exact (@link_colour_follows_matches ascii_engine searching_state
           (link_lit "Reasoning" "Symbolic") H1 H2).
Defined.

(** The search for ["neural"] evaluated on the built-in graph: the two
    matching nodes are highlighted, a link with a single matching end is
    dim, a non-matching satellite is dimmed, a matching node and the center
    are not. *)
Example search_run :
  ∃ d, @render ascii_engine searching_state = Ok d
  ∧ elements (highlightedNodeIds d) ≡ₚ [ "Neural_Nets"; "Symbolic" ]
  ∧ Galaxy.linkColor true (highlightedNodeIds d) (link_lit "Reasoning" "Symbolic")
    = "rgba(50, 50, 50, 0.1)"
  ∧ Galaxy.isDimmed true (highlightedNodeIds d) Transformers = true
  ∧ Galaxy.isDimmed true (highlightedNodeIds d) Neural_Nets = false
  ∧ Galaxy.isDimmed true (highlightedNodeIds d) AGI_CORE = false.
Proof.
  eexists. split; [vm_compute; reflexivity|].
  split; [|vm_compute; repeat split; reflexivity].
  apply NoDup_Permutation.
  - apply NoDup_elements.
  - by_compute.
  - intros i. rewrite elem_of_elements.
    assert (({[ "Neural_Nets"; "Symbolic" ]} : gset string)
            = list_to_set [ "Neural_Nets"; "Symbolic" ]) as Hs by by_compute.
    transitivity (i ∈ ({[ "Neural_Nets"; "Symbolic" ]} : gset string)).
    + match goal with |- i ∈ ?s ↔ _ =>
        assert (s = {[ "Neural_Nets"; "Symbolic" ]}) as -> by by_compute end.
      done.
    + rewrite Hs. by rewrite elem_of_list_to_set.
Qed.

(** ** Detail panel *)

(** X20.  The two figures of the detail panel depend only on the length
    of the node id, with period 100: Volatility is below 100, Impact lies
    between 20 and 119, so the Impact bar can be asked to be wider than 100%
    (105% for an id of five characters). *)
Theorem panel_stats_bounds (len : nat) :
  (Detail.risk len < 100)%nat
  ∧ (20 ≤ Detail.influence len)%nat ∧ (Detail.influence len ≤ 119)%nat
  ∧ Detail.risk (len + 100) = Detail.risk len
  ∧ Detail.influence (len + 100) = Detail.influence len
  ∧ Detail.influence 5 = 105%nat.
Proof.
  unfold Detail.risk, Detail.influence, Detail.getStat.
  pose proof (Nat.mod_upper_bound (len * 13) 100).
  pose proof (Nat.mod_upper_bound (len * 17) 100).
  repeat split; try lia.
  - replace ((len + 100) * 13)%nat with (len * 13 + 13 * 100)%nat by lia.
    by rewrite Nat.Div0.mod_add.
  - replace ((len + 100) * 17)%nat with (len * 17 + 17 * 100)%nat by lia.
    by rewrite Nat.Div0.mod_add.
Qed.
